(** * Verification of js/script.js (portfolio page glue code)

    The script wires a static page to animation and scrolling engines.
    Each component of the script is embedded below as executable
    definitions over an explicit page state, one module per component:

    - [JsString]   : JavaScript strings as UTF-16 code units, with
                     [String.prototype.trim] and [split(',')];
    - [Raf]        : [rafThrottle] and the animation-frame callback list;
    - [Header]     : the header scroll handler ([classList.toggle]);
    - [Indicator]  : [updateIndicator], over IEEE-754 binary64 numbers;
    - [Toast]      : [showToast], timers and tweens over a virtual clock;
    - [ContactForm]: the async submit listener, split at its [await];
    - [Modal]      : the project-card click listener, [hideModal] and the
                     keydown listener. *)

From Stdlib Require Import List Bool Arith NArith ZArith Lia.
From Stdlib Require Import Ascii String.
From Stdlib Require Import Floats QArith.
Import ListNotations.
Close Scope Q_scope.

(* ================================================================== *)
(** ** JavaScript strings *)
(* ================================================================== *)

Module JsString.

(** A JavaScript string is a sequence of UTF-16 code units. *)
Definition code_unit := N.
Definition jsstring := list code_unit.

(** ASCII literals of the source, as code units. *)
Definition lit (s : string) : jsstring :=
  map N_of_ascii (list_ascii_of_string s).

Fixpoint eqb (a b : jsstring) : bool :=
  match a, b with
  | [], [] => true
  | x :: a', y :: b' => N.eqb x y && eqb a' b'
  | _, _ => false
  end.

(** [ToBoolean] on a string: every string but the empty one is truthy. *)
Definition truthy (s : jsstring) : bool :=
  match s with [] => false | _ :: _ => true end.

(** [WhiteSpace] and [LineTerminator] code points of ECMAScript, the
    characters that [trim] strips. *)
Definition is_white_space (c : code_unit) : bool :=
  (N.eqb c 9 || N.eqb c 10 || N.eqb c 11 || N.eqb c 12 || N.eqb c 13
   || N.eqb c 32 || N.eqb c 160 || N.eqb c 5760
   || (N.leb 8192 c && N.leb c 8202)
   || N.eqb c 8232 || N.eqb c 8233 || N.eqb c 8239 || N.eqb c 8287
   || N.eqb c 12288 || N.eqb c 65279)%N.

Fixpoint trim_start (s : jsstring) : jsstring :=
  match s with
  | [] => []
  | c :: r => if is_white_space c then trim_start r else s
  end.

Fixpoint trim_end (s : jsstring) : jsstring :=
  match s with
  | [] => []
  | c :: r =>
      match trim_end r with
      | [] => if is_white_space c then [] else [c]
      | r' => c :: r'
      end
  end.

(** [s.trim()] *)
Definition trim (s : jsstring) : jsstring := trim_end (trim_start s).

(** [s.split(sep)] for a separator of one code unit: the pieces between
    the occurrences of [sep], empty pieces included; the empty string
    splits into one empty piece. *)
Fixpoint split (sep : code_unit) (s : jsstring) : list jsstring :=
  match s with
  | [] => [[]]
  | c :: r =>
      if N.eqb c sep then [] :: split sep r
      else match split sep r with
           | t :: ts => (c :: t) :: ts
           | [] => [[c]]
           end
  end.

Definition comma : code_unit := 44%N.

Definition count_sep (sep : code_unit) (s : jsstring) : nat :=
  List.length (filter (N.eqb sep) s).

End JsString.

(* ================================================================== *)
(** ** rafThrottle and the animation-frame callback list *)
(* ================================================================== *)

Module Raf.

(** How a call of the handler ends. *)
Inductive completion := Returned | Threw.

Section RafThrottle.
(** The handler [fn] receives a [this] binding and an argument list,
    acts on some state of its own and either returns or throws. *)
Context {This Args H : Type}.
Variable fn : This -> Args -> H -> H * completion.

(** The arrow function passed to [requestAnimationFrame] closes over
    [this] and [args] of the wrapper call that created it, so a
    registered callback is that pair. *)
Definition frame_callback : Type := (This * Args)%type.

Record world := mkWorld {
  ticking : bool;                        (* [let ticking] of the closure *)
  frame_callbacks : list frame_callback; (* registered, not yet run *)
  handler_state : H;
  invocations : list (This * Args);      (* calls [fn.apply(this, args)] so far *)
  uncaught : nat                         (* exceptions reported by the browser *)
}.

(** [rafThrottle(fn)]: a new closure, [ticking = false]. *)
Definition rafThrottle (h : H) : world := mkWorld false [] h [] 0.

(** [window.requestAnimationFrame(cb)] *)
Definition requestAnimationFrame (cb : frame_callback) (w : world) : world :=
  mkWorld (ticking w) (frame_callbacks w ++ [cb]) (handler_state w)
          (invocations w) (uncaught w).

Definition set_ticking (b : bool) (w : world) : world :=
  mkWorld b (frame_callbacks w) (handler_state w) (invocations w) (uncaught w).

(** The function returned by [rafThrottle], called with [this] and
    [args]. *)
Definition wrapper (this : This) (args : Args) (w : world) : world :=
  if negb (ticking w)
  then set_ticking true (requestAnimationFrame (this, args) w)
  else w.

(** [fn.apply(this, args)], recorded in [invocations]. *)
Definition apply_fn (cb : frame_callback) (w : world) : world * completion :=
  let '(h', c) := fn (fst cb) (snd cb) (handler_state w) in
  (mkWorld (ticking w) (frame_callbacks w) h' (invocations w ++ [cb])
           (uncaught w), c).

(** The body of the arrow function: [fn.apply(this, args); ticking =
    false;].  When [fn] throws the assignment is not reached and the
    exception reaches the browser. *)
Definition run_callback (cb : frame_callback) (w : world) : world :=
  match apply_fn cb w with
  | (w', Returned) => set_ticking false w'
  | (w', Threw) =>
      mkWorld (ticking w') (frame_callbacks w') (handler_state w')
              (invocations w') (S (uncaught w'))
  end.

(** One animation frame: the browser takes the list of registered
    callbacks, empties it, and runs them in order; callbacks
    registered meanwhile wait for the next frame. *)
Definition animation_frame (w : world) : world :=
  fold_left (fun acc cb => run_callback cb acc) (frame_callbacks w)
            (mkWorld (ticking w) [] (handler_state w) (invocations w)
                     (uncaught w)).

Inductive event :=
| Invoke (this : This) (args : Args)
| AnimationFrame.

Definition step (w : world) (e : event) : world :=
  match e with
  | Invoke this args => wrapper this args w
  | AnimationFrame => animation_frame w
  end.

Definition run (es : list event) (w : world) : world := fold_left step es w.

(** [N] wrapper calls in a row. *)
Definition invoke_all (cs : list (This * Args)) (w : world) : world :=
  run (map (fun c => Invoke (fst c) (snd c)) cs) w.

(** The three situations a wrapper can be in. *)
Inductive phase (w : world) : Prop :=
| Idle : ticking w = false -> frame_callbacks w = [] -> phase w
| Pending cb : ticking w = true -> frame_callbacks w = [cb] -> phase w
| Stuck : ticking w = true -> frame_callbacks w = [] -> phase w.

End RafThrottle.

(** Handlers used to exercise the model. *)
Definition record_args (_ : nat) (a : nat) (h : list nat)
  : list nat * completion := (h ++ [a], Returned).

Definition always_throws (_ : nat) (_ : nat) (h : list nat)
  : list nat * completion := (h, Threw).

End Raf.

(* ================================================================== *)
(** ** JavaScript numbers *)
(* ================================================================== *)

(** A JavaScript Number is an IEEE-754 binary64 value, which is what
    the primitive floats are; [/], [*], [-] and [<?] below are the
    operations of the language. *)
Module JsNumber.
Open Scope float_scope.

(** [Math.max(x, y)]: NaN if either is NaN, and [+0] is larger than
    [-0]. *)
Definition Math_max (x y : float) : float :=
  if is_nan x || is_nan y then nan
  else if x <? y then y
  else if y <? x then x
  else if get_sign x then y else x.

(** [Math.min(x, y)]: NaN if either is NaN, and [-0] is smaller than
    [+0]. *)
Definition Math_min (x y : float) : float :=
  if is_nan x || is_nan y then nan
  else if x <? y then x
  else if y <? x then y
  else if get_sign x then x else y.

(** The specifications of the constants [0] and [1]. *)
Definition sf0 : spec_float := S754_zero false.
Definition sf1 : spec_float := S754_finite false 4503599627370496 (-52).

(** Where a number lies with respect to 0 and 1: the values of the
    comparisons a clamp to the unit interval evaluates. *)
Record comparisons := mkCmp {
  c_nan : bool; c_lt0 : bool; c_gt0 : bool; c_lt1 : bool; c_gt1 : bool;
  c_ge0 : bool; c_le1 : bool; c_eq0 : bool; c_eq1 : bool
}.

Definition comparisons_of (x : float) : comparisons :=
  mkCmp (is_nan x) (x <? 0) (0 <? x) (x <? 1) (1 <? x)
        (0 <=? x) (x <=? 1) (0 =? x) (1 =? x).

Definition position_nan   := mkCmp true  false false false false false false false false.
Definition position_neg   := mkCmp false true  false true  false false true  false false.
Definition position_zero  := mkCmp false false false true  false true  true  true  false.
Definition position_mid   := mkCmp false false true  true  false true  true  false false.
Definition position_one   := mkCmp false false true  false false true  true  false true.
Definition position_above := mkCmp false false true  false true  true  false false false.

End JsNumber.

(* ================================================================== *)
(** ** Header: the scroll handler *)
(* ================================================================== *)

Module Header.
Import JsString.
Open Scope float_scope.

(** [el.classList] is an ordered set of tokens. *)
Definition classList := list jsstring.

Definition contains (cl : classList) (token : jsstring) : bool :=
  existsb (JsString.eqb token) cl.

Definition remove (cl : classList) (token : jsstring) : classList :=
  filter (fun t => negb (JsString.eqb token t)) cl.

(** [cl.toggle(token, force)]: with [force] the token is added (once)
    when [force] is true and removed when it is false. *)
Definition toggle (cl : classList) (token : jsstring) (force : bool) : classList :=
  if force
  then (if contains cl token then cl else cl ++ [token])
  else remove cl token.

Record page := mkPage {
  scrollY : float;          (* [window.scrollY] *)
  header_classList : classList  (* [header.classList] *)
}.

(** The function given to [rafThrottle] for the header. *)
Definition onHeaderScroll_handler (p : page) : page :=
  let scrolled := (50 <? scrollY p) in
  mkPage (scrollY p) (toggle (header_classList p) (lit "scrolled") scrolled).

(** [onHeaderScroll = rafThrottle(() => ...)]: the handler ignores its
    binding and arguments and does not throw. *)
Definition onHeaderScroll_fn (_ : unit) (_ : unit) (p : page)
  : page * Raf.completion :=
  (onHeaderScroll_handler p, Raf.Returned).

End Header.

(* ================================================================== *)
(** ** Scroll indicator *)
(* ================================================================== *)

Module Indicator.
Import JsNumber.
Open Scope float_scope.

(** The three properties read from [document.documentElement]. *)
Record documentElement := mkDoc {
  scrollTop : float;
  scrollHeight : float;
  clientHeight : float
}.

(** The value of [scrollIndicator.style.transform]; the text of the
    number inside [scaleX(...)] is not modelled, the number is. *)
Inductive transform :=
| ScaleX (factor : float).

Definition factor_of (t : transform) : float :=
  match t with ScaleX f => f end.

(** [updateIndicator], returning the transform it writes together with
    the divisors of the divisions it evaluated, in order. *)
Definition updateIndicator (d : documentElement) : transform * list float :=
  let scrollableHeight := scrollHeight d - clientHeight d in
  let '(scrollPercent, divisors) :=
    if 0 <? scrollableHeight
    then ((scrollTop d / scrollableHeight) * 100, [scrollableHeight])
    else (0, []) in
  (ScaleX (Math_min (Math_max (scrollPercent / 100) 0) 1),
   divisors ++ [100]).

Definition scale (d : documentElement) : float :=
  factor_of (fst (updateIndicator d)).

(** [clamp(x, lo, hi)] *)
Definition clamp (x lo hi : float) : float := Math_min (Math_max x lo) hi.

(** A page of height 1600 in a window of height 600, scrolled by 7. *)
Definition scrolled_by_7 : documentElement := mkDoc 7 1600 600.

(** The same computation over exact rationals, to compare the rounded
    result with. *)
Module Exact.
Open Scope Q_scope.

Definition Qlt_bool (x y : Q) : bool := negb (Qle_bool y x).
Definition Qmax (x y : Q) : Q := if Qle_bool x y then y else x.
Definition Qmin (x y : Q) : Q := if Qle_bool x y then x else y.
Definition clamp (x lo hi : Q) : Q := Qmin (Qmax x lo) hi.

Definition scale (scrollTop scrollHeight clientHeight : Q) : Q :=
  let scrollableHeight := scrollHeight - clientHeight in
  let scrollPercent :=
    if Qlt_bool 0 scrollableHeight
    then (scrollTop / scrollableHeight) * 100
    else 0 in
  Qmin (Qmax (scrollPercent / 100) 0) 1.

End Exact.

End Indicator.

(* ================================================================== *)
(** ** Toast notifications, timers and tweens *)
(* ================================================================== *)

Module Toast.
Import JsString.
Open Scope Z_scope.

(** A toast element; [tid] is the identity of the DOM node. *)
Record toast := mkToast {
  tid : nat;
  textContent : jsstring;
  className : jsstring
}.

Definition base_class : jsstring :=
  lit "fixed bottom-6 right-6 px-4 py-3 rounded-lg text-white shadow-lg z-50 transition-all duration-500 transform"
  ++ [10%N] ++ lit "    ".

(** The nested conditional of the template literal. *)
Definition type_class (type : jsstring) : jsstring :=
  if JsString.eqb type (lit "success") then lit "bg-green-600"
  else if JsString.eqb type (lit "error") then lit "bg-red-600"
  else lit "bg-gray-700".

(** A tween of the animation engine on a toast, with the time at which
    it ends.  The exit tween carries [onComplete: () => toast.remove()]. *)
Inductive tween :=
| Entrance (target : nat) (finish : Z)
| Exit (target : nat) (finish : Z).

Definition finish_of (t : tween) : Z :=
  match t with Entrance _ f => f | Exit _ f => f end.

(** Time is in milliseconds.  [timers] holds the pending [setTimeout]
    callbacks with their due times; the callback of [showToast] is
    determined by the toast it closes over.  [created] is the history
    of [showToast] calls: node identity and creation time. *)
Record world := mkWorld {
  now : Z;
  next_id : nat;
  body : list toast;          (* children of [document.body] *)
  timers : list (Z * nat);
  tweens : list tween;
  created : list (nat * Z)
}.

Definition init : world := mkWorld 0 0 [] [] [] [].

Definition dwell : Z := 3000.
Definition entrance_duration : Z := 400.   (* duration: 0.4 *)
Definition exit_duration : Z := 500.       (* duration: 0.5 *)

(** [showToast(message, type)] *)
Definition showToast (message type : jsstring) (w : world) : world :=
  let toast := mkToast (next_id w) message (base_class ++ type_class type) in
  mkWorld (now w) (S (next_id w))
          (body w ++ [toast])                                  (* appendChild *)
          (timers w ++ [(now w + dwell, next_id w)])           (* setTimeout *)
          (tweens w ++ [Entrance (next_id w) (now w + entrance_duration)])
          ((next_id w, now w) :: created w).

(** [showToast(message)]: the parameter default. *)
Definition showToast_default (message : jsstring) : world -> world :=
  showToast message (lit "info").

Fixpoint remove_nth {A} (n : nat) (l : list A) : list A :=
  match n, l with
  | _, [] => []
  | O, _ :: r => r
  | S n', x :: r => x :: remove_nth n' r
  end.

(** [toast.remove()] *)
Definition remove_node (id : nat) (l : list toast) : list toast :=
  filter (fun t => negb (Nat.eqb (tid t) id)) l.

(** Time passes. *)
Definition elapse (d : Z) (w : world) : option world :=
  if 0 <=? d
  then Some (mkWorld (now w + d) (next_id w) (body w) (timers w) (tweens w)
                     (created w))
  else None.

(** The host runs the [n]-th pending timer; it may do so once the due
    time has come, not before.  The callback starts the exit tween. *)
Definition fire_timer (n : nat) (w : world) : option world :=
  match nth_error (timers w) n with
  | Some (due, id) =>
      if due <=? now w
      then Some (mkWorld (now w) (next_id w) (body w)
                         (remove_nth n (timers w))
                         (tweens w ++ [Exit id (now w + exit_duration)])
                         (created w))
      else None
  | None => None
  end.

(** The animation engine completes the [n]-th tween, once its duration
    has elapsed; the exit tween then runs its [onComplete]. *)
Definition complete_tween (n : nat) (w : world) : option world :=
  match nth_error (tweens w) n with
  | Some t =>
      if finish_of t <=? now w
      then Some (mkWorld (now w) (next_id w)
                         (match t with
                          | Exit id _ => remove_node id (body w)
                          | Entrance _ _ => body w
                          end)
                         (timers w) (remove_nth n (tweens w)) (created w))
      else None
  | None => None
  end.

Inductive event :=
| Show (message type : jsstring)
| Elapse (d : Z)
| FireTimer (n : nat)
| CompleteTween (n : nat).

Definition step (e : event) (w : world) : option world :=
  match e with
  | Show m t => Some (showToast m t w)
  | Elapse d => elapse d w
  | FireTimer n => fire_timer n w
  | CompleteTween n => complete_tween n w
  end.

Fixpoint run (es : list event) (w : world) : option world :=
  match es with
  | [] => Some w
  | e :: es' =>
      match step e w with
      | Some w' => run es' w'
      | None => None
      end
  end.

Definition reachable (w : world) : Prop := exists es, run es init = Some w.

(** The world after a run from the initial one ([init] itself when the
    run is not possible). *)
Definition world_after (es : list event) : world :=
  match run es init with
  | Some w => w
  | None => init
  end.

Definition in_document (id : nat) (w : world) : bool :=
  existsb (fun t => Nat.eqb (tid t) id) (body w).

(** What holds of every world the page can be in. *)
Record invariant (w : world) : Prop := mkInv {
  inv_fresh : forall id T, In (id, T) (created w) -> (id < next_id w)%nat;
  inv_unique : forall id T T',
      In (id, T) (created w) -> In (id, T') (created w) -> T = T';
  (* a pending timer is the one set at creation *)
  inv_timers : forall due id,
      In (due, id) (timers w) -> In (id, due - dwell) (created w);
  (* an exit tween was started by the timer, at or after its due time *)
  inv_exit : forall id f,
      In (Exit id f) (tweens w) ->
      f - exit_duration <= now w /\
      exists T, In (id, T) (created w) /\ T + dwell + exit_duration <= f;
  (* a toast is in the document until its exit tween has completed *)
  inv_present : forall id T,
      In (id, T) (created w) -> now w < T + dwell + exit_duration ->
      in_document id w = true
}.

End Toast.

(* ================================================================== *)
(** ** Contact form: the submit listener *)
(* ================================================================== *)

Module ContactForm.
Import JsString.
Open Scope Z_scope.

(** A form control with its current and its default value. *)
Record control := mkControl {
  name : jsstring;
  value : jsstring;
  defaultValue : jsstring
}.

Record button := mkButton {
  disabled : bool;
  button_text : jsstring   (* [textContent] *)
}.

(** The two tweens the listener starts on the form. *)
Inductive form_tween :=
| FadeOut   (* { opacity: 0, y: -10, duration: 0.4 } *)
| FadeIn.   (* { opacity: 1, y: 0, duration: 0.4, delay: 0.3 } *)

Record page := mkPage {
  controls : list control;
  submitButton : option button;  (* [form.querySelector("button[type='submit']")] *)
  defaultPrevented : bool;
  form_tweens : list form_tween;
  console_errors : list jsstring;
  toasts : Toast.world
}.

(** What [await fetch(...)] gives: a response with its status, or a
    thrown error. *)
Inductive fetch_result :=
| Response (status : Z)
| FetchError (error : jsstring).

(** [response.ok] *)
Definition ok (status : Z) : bool := (200 <=? status) && (status <=? 299).

Definition success_message : jsstring :=
  9989%N :: lit " Message sent successfully!".
Definition rejected_message : jsstring :=
  10060%N :: lit " Something went wrong. Please try again.".
Definition network_message : jsstring :=
  9888%N :: 65039%N :: lit " Network error. Please try again later.".

Definition set_button (b : option button) (p : page) : page :=
  mkPage (controls p) b (defaultPrevented p) (form_tweens p)
         (console_errors p) (toasts p).

Definition gsap_to_form (t : form_tween) (p : page) : page :=
  mkPage (controls p) (submitButton p) (defaultPrevented p)
         (form_tweens p ++ [t]) (console_errors p) (toasts p).

Definition showToast (message type : jsstring) (p : page) : page :=
  mkPage (controls p) (submitButton p) (defaultPrevented p) (form_tweens p)
         (console_errors p) (Toast.showToast message type (toasts p)).

(** [form.reset()] *)
Definition reset_control (c : control) : control :=
  mkControl (name c) (defaultValue c) (defaultValue c).

Definition form_reset (p : page) : page :=
  mkPage (map reset_control (controls p)) (submitButton p)
         (defaultPrevented p) (form_tweens p) (console_errors p) (toasts p).

Definition console_error (error : jsstring) (p : page) : page :=
  mkPage (controls p) (submitButton p) (defaultPrevented p) (form_tweens p)
         (console_errors p ++ [lit "Form submission error:" ++ error])
         (toasts p).

Definition preventDefault (p : page) : page :=
  mkPage (controls p) (submitButton p) true (form_tweens p)
         (console_errors p) (toasts p).

(** The listener up to its [await]: either it is suspended on the
    fetch, or it has thrown (a property of [null] was set). *)
Inductive suspended :=
| Awaiting (p : page)
| Thrown (p : page).

Definition submit_begin (p : page) : suspended :=
  let p := preventDefault p in
  match submitButton p with
  | None => Thrown p
  | Some _ => Awaiting (set_button (Some (mkButton true (lit "Sending..."))) p)
  end.

(** The body of [try], after the [await]. *)
Definition try_block (status : Z) (p : page) : page :=
  if ok status
  then
    let p := gsap_to_form FadeOut p in
    let p := showToast success_message (lit "success") p in
    let p := form_reset p in
    gsap_to_form FadeIn p
  else showToast rejected_message (lit "error") p.

Definition catch_block (error : jsstring) (p : page) : page :=
  let p := console_error error p in
  showToast network_message (lit "error") p.

Definition finally_block (p : page) : page :=
  set_button (Some (mkButton false (lit "Send Message"))) p.

(** The listener from the point where the fetch settles. *)
Definition submit_resume (r : fetch_result) (p : page) : page :=
  finally_block
    (match r with
     | Response status => try_block status p
     | FetchError error => catch_block error p
     end).

(** The whole listener for a given result of the fetch; [None] when it
    threw before the fetch was issued. *)
Definition submit (r : fetch_result) (p : page) : option page :=
  match submit_begin p with
  | Awaiting p' => Some (submit_resume r p')
  | Thrown _ => None
  end.

Definition is_error_toast (t : Toast.toast) : bool :=
  JsString.eqb (Toast.className t)
               (Toast.base_class ++ Toast.type_class (lit "error")).

Definition is_success_toast (t : Toast.toast) : bool :=
  JsString.eqb (Toast.className t)
               (Toast.base_class ++ Toast.type_class (lit "success")).

(** The toast [showToast(message, type)] adds to the document of [p]. *)
Definition toast_of (message type : jsstring) (p : page) : Toast.toast :=
  Toast.mkToast (Toast.next_id (toasts p)) message
                (Toast.base_class ++ Toast.type_class type).

(** A form with one filled-in control and its submit button. *)
Definition filled_form : page :=
  mkPage [mkControl (lit "email") (lit "ada@example.org") (lit "")]
         (Some (mkButton false (lit "Send Message"))) false [] [] Toast.init.

End ContactForm.

(* ================================================================== *)
(** ** Project modal *)
(* ================================================================== *)

Module Modal.
Import JsString.

(** The [data-*] attributes of a project card; [None] when absent. *)
Record card := mkCard {
  data_title : option jsstring;
  data_description : option jsstring;
  data_stack : option jsstring
}.

(** Children of the stack container. *)
Inductive node :=
| Span (className textContent : jsstring)
| Text (data : jsstring).

(** The elements looked up by id are [None] when the page lacks them. *)
Record page := mkPage {
  modal : option jsstring;             (* [modal.style.display] *)
  modalTitle : option jsstring;        (* its [textContent] *)
  modalDescription : option jsstring;  (* its [textContent] *)
  modalStackContainer : option (list node);  (* its children *)
  closeModal : bool;                   (* is there a close control *)
  body_overflow : jsstring;            (* [document.body.style.overflow] *)
  close_focused : bool                 (* [closeModal.focus()] was called *)
}.

(** [a || d] for an attribute value [a] that may be [undefined]. *)
Definition or_default (a : option jsstring) (d : jsstring) : jsstring :=
  match a with
  | Some s => if truthy s then s else d
  | None => d
  end.

(** [card.dataset.stack ? card.dataset.stack.split(',').map(s => s.trim()) : []] *)
Definition stack_of (c : card) : list jsstring :=
  match data_stack c with
  | Some s => if truthy s then map trim (split comma s) else []
  | None => []
  end.

Definition span_class : jsstring := lit "bg-gray-700 text-gray-300 px-2 py-1 rounded".
Definition placeholder : jsstring := lit "Tech stack not specified.".

(** What the container holds after the [if (stack.length > 0)]
    statement, starting from the emptied container. *)
Definition render_stack (stack : list jsstring) : list node :=
  match stack with
  | [] => [Text placeholder]
  | _ :: _ => fold_left (fun children tech => children ++ [Span span_class tech])
                        stack []
  end.

(** The click listener of a card.  Setting a property of an element
    that is missing throws, and the statements before it have taken
    effect. *)
Definition card_click (c : card) (p : page) : page * Raf.completion :=
  match modalTitle p with
  | None => (p, Raf.Threw)
  | Some _ =>
    let title := or_default (data_title c) (lit "Project Details") in
    let p := mkPage (modal p) (Some title) (modalDescription p)
                    (modalStackContainer p) (closeModal p) (body_overflow p)
                    (close_focused p) in
    match modalDescription p with
    | None => (p, Raf.Threw)
    | Some _ =>
      let description :=
        or_default (data_description c) (lit "No description available.") in
      let p := mkPage (modal p) (modalTitle p) (Some description)
                      (modalStackContainer p) (closeModal p) (body_overflow p)
                      (close_focused p) in
      match modalStackContainer p with
      | None => (p, Raf.Threw)
      | Some _ =>
        let p := mkPage (modal p) (modalTitle p) (modalDescription p)
                        (Some (render_stack (stack_of c))) (closeModal p)
                        (body_overflow p) (close_focused p) in
        match modal p with
        | None => (p, Raf.Threw)
        | Some _ =>
          (mkPage (Some (lit "block")) (modalTitle p) (modalDescription p)
                  (modalStackContainer p) (closeModal p) (lit "hidden")
                  (closeModal p || close_focused p),
           Raf.Returned)
        end
      end
    end
  end.

Definition hideModal (p : page) : page :=
  match modal p with
  | None => p
  | Some _ =>
      mkPage (Some (lit "none")) (modalTitle p) (modalDescription p)
             (modalStackContainer p) (closeModal p) (lit "") (close_focused p)
  end.

(** The keydown listener on [window], for an event with the given
    [key]. *)
Definition keydown (key : jsstring) (p : page) : page :=
  if JsString.eqb key (lit "Escape") || JsString.eqb key (lit "Esc")
  then match modal p with
       | Some display =>
           if JsString.eqb display (lit "block") then hideModal p else p
       | None => p
       end
  else p.

(** The click listener on [window]; [on_modal] says whether the target
    of the event is the modal element itself. *)
Definition window_click (on_modal : bool) (p : page) : page :=
  if on_modal then hideModal p else p.

(** The four elements the card listener writes to are on the page. *)
Definition has_modal_elements (p : page) : bool :=
  match modal p, modalTitle p, modalDescription p, modalStackContainer p with
  | Some _, Some _, Some _, Some _ => true
  | _, _, _, _ => false
  end.

(** A page with a closed modal, and cards to click. *)
Definition closed_page : page :=
  mkPage (Some (lit "")) (Some (lit "")) (Some (lit "")) (Some []) true
         (lit "") false.

Definition card_with_stack (stack : option jsstring) : card :=
  mkCard None None stack.

(** The modal is open when its display style is ["block"]. *)
Definition is_open (p : page) : bool :=
  match modal p with
  | Some display => JsString.eqb display (lit "block")
  | None => false
  end.

End Modal.

(* ================================================================== *)
(** ** Runs of a throttled handler *)
(* ================================================================== *)

Module RafTrace.
Import Raf.

Section Trace.
Context {This Args : Type}.

Definition is_frame (e : @event This Args) : bool :=
  match e with AnimationFrame => true | Invoke _ _ => false end.

(** The animation frames of a run. *)
Definition count_frames (es : list (@event This Args)) : nat :=
  List.length (filter is_frame es).

(** The frames of a run that come after at least one wrapper call made
    since the frame before; [pending] says whether such a call was made
    before the run. *)
Fixpoint busy_frames (pending : bool) (es : list (@event This Args)) : nat :=
  match es with
  | [] => 0
  | Invoke _ _ :: r => busy_frames true r
  | AnimationFrame :: r => (if pending then 1 else 0) + busy_frames false r
  end.

(** The binding and arguments of the wrapper calls of a run. *)
Fixpoint calls_of (es : list (@event This Args)) : list (This * Args) :=
  match es with
  | [] => []
  | Invoke this args :: r => (this, args) :: calls_of r
  | AnimationFrame :: r => calls_of r
  end.

End Trace.

End RafTrace.

(* ================================================================== *)
(** ** Section fades *)
(* ================================================================== *)

Module Sections.
Import JsString.

(** The callback of [sections.forEach((section, index) => ...)] for a
    section with the given [id]: [true] when it returns early, before
    the fade tween is created. *)
Definition skipped (len : nat) (id : jsstring) (index : nat) : bool :=
  JsString.eqb id (lit "hero")
  || Z.eqb (Z.of_nat index) (Z.of_nat len - 1).

(** The loop from position [index] on: the indices of the sections for
    which [gsap.to(section, ...)] is called, in the order of the
    calls. *)
Fixpoint forEach_from (len index : nat) (ids : list jsstring) : list nat :=
  match ids with
  | [] => []
  | id :: r =>
      if skipped len id index
      then forEach_from len (S index) r
      else index :: forEach_from len (S index) r
  end.

(** [sections.forEach(...)] over the sections with the given ids. *)
Definition section_fades (ids : list jsstring) : list nat :=
  forEach_from (List.length ids) 0 ids.

End Sections.

(* ================================================================== *)
(** ** The header and the indicator behind their throttles *)
(* ================================================================== *)

Module ScrollPage.
Import JsString Raf.
Open Scope float_scope.

(** The part of the document the two scroll handlers read and write. *)
Record dom := mkDom {
  window_scrollY : float;
  documentElement : Indicator.documentElement;
  header_classList : Header.classList;
  indicator_transform : option Indicator.transform  (* [None]: never written *)
}.

(** The arrow function given to [rafThrottle] for the header, on the
    document. *)
Definition header_fn (_ : unit) (_ : unit) (s : dom) : dom * completion :=
  let h := Header.onHeaderScroll_handler
             (Header.mkPage (window_scrollY s) (header_classList s)) in
  (mkDom (window_scrollY s) (documentElement s) (Header.header_classList h)
         (indicator_transform s),
   Returned).

(** [updateIndicator] on the document. *)
Definition updateIndicator (s : dom) : dom :=
  mkDom (window_scrollY s) (documentElement s) (header_classList s)
        (Some (fst (Indicator.updateIndicator (documentElement s)))).

Definition indicator_fn (_ : unit) (_ : unit) (s : dom) : dom * completion :=
  (updateIndicator s, Returned).

(** A wrapper made by [rafThrottle]; its handler acts on the document
    of the page, which is put in place when a frame runs it. *)
Definition throttle := @Raf.world unit unit dom.

Definition on_document (s : dom) (w : throttle) : throttle :=
  Raf.mkWorld (ticking w) (frame_callbacks w) s (invocations w) (uncaught w).

(** The page: its document and the scroll listeners that were
    registered; a listener is [None] when its element is missing
    ([if (header)], [if (scrollIndicator)]). *)
Record page := mkPage {
  document : dom;
  onHeaderScroll : option throttle;
  onIndicatorScroll : option throttle
}.

(** The two blocks of the script, run once when the page is ready:
    the header listener is called through its wrapper, the indicator
    is updated directly. *)
Definition init (has_header has_indicator : bool) (s : dom) : page :=
  let header :=
    if has_header
    then Some (Raf.wrapper tt tt (Raf.rafThrottle s))
    else None in
  if has_indicator
  then mkPage (updateIndicator s) header (Some (Raf.rafThrottle s))
  else mkPage s header None.

(** A scroll: the position changes and the scroll listeners of
    [window] are called. *)
Definition scroll (scrollY : float) (d : Indicator.documentElement) (p : page)
  : page :=
  mkPage (mkDom scrollY d (header_classList (document p))
                (indicator_transform (document p)))
         (option_map (Raf.wrapper tt tt) (onHeaderScroll p))
         (option_map (Raf.wrapper tt tt) (onIndicatorScroll p)).

(** A wrapper's share of an animation frame. *)
Definition frame_of (fn : unit -> unit -> dom -> dom * completion)
    (s : dom) (w : option throttle) : dom * option throttle :=
  match w with
  | Some w =>
      let w' := Raf.animation_frame fn (on_document s w) in
      (handler_state w', Some w')
  | None => (s, None)
  end.

(** An animation frame: the callbacks of the header wrapper, then those
    of the indicator wrapper. *)
Definition frame (p : page) : page :=
  let '(s1, header) := frame_of header_fn (document p) (onHeaderScroll p) in
  let '(s2, indicator) := frame_of indicator_fn s1 (onIndicatorScroll p) in
  mkPage s2 header indicator.

Inductive event :=
| Scroll (scrollY : float) (d : Indicator.documentElement)
| Frame.

Definition step (p : page) (e : event) : page :=
  match e with
  | Scroll y d => scroll y d p
  | Frame => frame p
  end.

Definition run (es : list event) (p : page) : page := fold_left step es p.

(** The position after a run: that of the last scroll. *)
Fixpoint last_position (es : list event) (y : float)
    (d : Indicator.documentElement) : float * Indicator.documentElement :=
  match es with
  | [] => (y, d)
  | Scroll y' d' :: r => last_position r y' d'
  | Frame :: r => last_position r y d
  end.

End ScrollPage.

(* ================================================================== *)
(** ** The frame loop of the smooth-scrolling engine *)
(* ================================================================== *)

Module LenisLoop.

(** [raf_registered] counts the callbacks [raf] registered for the next
    animation frame, [lenis_raf_times] lists the calls
    [lenis.raf(time)] made so far. *)
Record world := mkWorld {
  raf_registered : nat;
  lenis_raf_times : list float
}.

(** [function raf(time) { lenis.raf(time); requestAnimationFrame(raf); }] *)
Definition raf (time : float) (w : world) : world :=
  mkWorld (S (raf_registered w)) (lenis_raf_times w ++ [time]).

(** The branch on [useLenis]: with the engine on the page the script
    registers [raf] once; without it, not at all. *)
Definition init (useLenis : bool) : world :=
  if useLenis then mkWorld 1 [] else mkWorld 0 [].

Fixpoint run_callbacks (n : nat) (time : float) (w : world) : world :=
  match n with
  | O => w
  | S n' => run_callbacks n' time (raf time w)
  end.

(** An animation frame at [time]: the callbacks registered before the
    frame are run with [time]; those they register wait for the next
    frame. *)
Definition animation_frame (time : float) (w : world) : world :=
  run_callbacks (raf_registered w) time (mkWorld 0 (lenis_raf_times w)).

Definition frames (times : list float) (w : world) : world :=
  fold_left (fun acc time => animation_frame time acc) times w.

End LenisLoop.

(* ================================================================== *)
(** * Properties *)
(* ================================================================== *)

Module JsStringFacts.
Import JsString.

Lemma eqb_eq (a b : jsstring) : eqb a b = true <-> a = b.
Proof.
  revert b; induction a as [|x a IH]; intros [|y b]; simpl;
    try (split; congruence).
  rewrite andb_true_iff, N.eqb_eq, IH. split.
  - intros [-> ->]; reflexivity.
  - intros E; injection E; auto.
Qed.

Lemma eqb_refl (a : jsstring) : eqb a a = true.
Proof. apply eqb_eq; reflexivity. Qed.

Lemma eqb_neq (a b : jsstring) : eqb a b = false <-> a <> b.
Proof.
  rewrite <- eqb_eq. destruct (eqb a b); split; congruence.
Qed.

Lemma split_not_nil (sep : code_unit) (s : jsstring) : split sep s <> [].
Proof.
  induction s as [|c r IH]; simpl; [discriminate|].
  destruct (N.eqb c sep); [discriminate|].
  destruct (split sep r); [contradiction|discriminate].
Qed.

Lemma split_length (sep : code_unit) (s : jsstring) :
  List.length (split sep s) = S (count_sep sep s).
Proof.
  unfold count_sep. induction s as [|c r IH]; simpl; [reflexivity|].
  rewrite (N.eqb_sym sep c).
  destruct (N.eqb c sep); simpl.
  - now rewrite IH.
  - pose proof (split_not_nil sep r) as NE.
    destruct (split sep r); [contradiction|exact IH].
Qed.

End JsStringFacts.

(* ================================================================== *)
(** ** rafThrottle *)
(* ================================================================== *)

Module RafFacts.
Import Raf.

Section Throttle.
Context {This Args H : Type}.
Variable fn : This -> Args -> H -> H * completion.

Local Abbreviation world := (@Raf.world This Args H).
Local Abbreviation event := (@Raf.event This Args).

Lemma wrapper_idle (w : world) this args :
  ticking w = false ->
  wrapper this args w =
  mkWorld true (frame_callbacks w ++ [(this, args)]) (handler_state w)
          (invocations w) (uncaught w).
Proof. intros E. unfold wrapper. rewrite E. reflexivity. Qed.

Lemma wrapper_ticking (w : world) this args :
  ticking w = true -> wrapper this args w = w.
Proof. intros E. unfold wrapper. rewrite E. reflexivity. Qed.

(** A wrapper call never runs the handler. *)
Lemma wrapper_deferred (w : world) this args :
  invocations (wrapper this args w) = invocations w /\
  handler_state (wrapper this args w) = handler_state w /\
  uncaught (wrapper this args w) = uncaught w.
Proof. unfold wrapper. destruct (ticking w); simpl; auto. Qed.

Lemma invoke_all_ticking (cs : list (This * Args)) (w : world) :
  ticking w = true -> invoke_all fn cs w = w.
Proof.
  unfold invoke_all, run. induction cs as [|c cs IH]; simpl; intros E.
  - reflexivity.
  - rewrite (wrapper_ticking _ _ _ E). exact (IH E).
Qed.

Lemma invoke_all_idle c (cs : list (This * Args)) (w : world) :
  ticking w = false -> frame_callbacks w = [] ->
  invoke_all fn (c :: cs) w =
  mkWorld true [c] (handler_state w) (invocations w) (uncaught w).
Proof.
  intros E Q. unfold invoke_all, run. simpl.
  rewrite (wrapper_idle _ _ _ E), Q. simpl.
  destruct c as [t a]. simpl.
  apply (invoke_all_ticking cs). reflexivity.
Qed.

Lemma animation_frame_one (w : world) cb :
  frame_callbacks w = [cb] ->
  animation_frame fn w =
  run_callback fn cb (mkWorld (ticking w) [] (handler_state w)
                              (invocations w) (uncaught w)).
Proof. intros Q. unfold animation_frame. rewrite Q. reflexivity. Qed.

Lemma animation_frame_none (w : world) :
  frame_callbacks w = [] -> animation_frame fn w = w.
Proof.
  intros Q. unfold animation_frame. rewrite Q. simpl.
  destruct w; simpl in *; subst; reflexivity.
Qed.

(** Every event keeps the wrapper in one of the three phases. *)
Lemma step_phase (w : world) (e : event) : phase w -> phase (step fn w e).
Proof.
  intros [E Q | cb E Q | E Q]; destruct e as [t a|]; simpl.
  - rewrite (wrapper_idle _ _ _ E), Q. now apply Pending with (cb := (t, a)).
  - rewrite (animation_frame_none _ Q). now apply Idle.
  - rewrite (wrapper_ticking _ _ _ E). now apply Pending with (cb := cb).
  - rewrite (animation_frame_one _ _ Q). unfold run_callback, apply_fn. simpl.
    destruct (fn (fst cb) (snd cb) (handler_state w)) as [h' []]; simpl.
    + now apply Idle.
    + now apply Stuck.
  - rewrite (wrapper_ticking _ _ _ E). now apply Stuck.
  - rewrite (animation_frame_none _ Q). now apply Stuck.
Qed.

Lemma run_phase (es : list event) (w : world) : phase w -> phase (run fn es w).
Proof.
  unfold run. revert w. induction es as [|e es IH]; simpl; intros w P.
  - exact P.
  - apply IH, step_phase, P.
Qed.

Lemma rafThrottle_phase (es : list event) (h : H) :
  phase (run fn es (rafThrottle h)).
Proof. apply run_phase. now apply Idle. Qed.

(** Once stuck, no event changes the world. *)
Lemma stuck_step (w : world) (e : event) :
  ticking w = true -> frame_callbacks w = [] -> step fn w e = w.
Proof.
  intros E Q. destruct e as [t a|]; simpl.
  - apply wrapper_ticking, E.
  - apply animation_frame_none, Q.
Qed.

Lemma stuck_run (es : list event) (w : world) :
  ticking w = true -> frame_callbacks w = [] -> run fn es w = w.
Proof.
  intros E Q. unfold run. induction es as [|e es IH]; simpl.
  - reflexivity.
  - rewrite (stuck_step _ _ E Q). exact IH.
Qed.

(** C1 (amended): from an idle wrapper, N >= 1 calls [c :: cs] before
    the next frame run the handler exactly once, in that frame and
    not during the calls, with the binding and arguments of the FIRST
    call [c]; the later calls are dropped.  When the handler returns,
    the wrapper is idle again. *)
Theorem rafThrottle_once_per_frame_first_call
    (w : world) (c : This * Args) (cs : list (This * Args)) :
  ticking w = false -> frame_callbacks w = [] ->
  let w1 := invoke_all fn (c :: cs) w in
  let w2 := animation_frame fn w1 in
  (invocations w1 = invocations w /\ handler_state w1 = handler_state w) /\
  invocations w2 = invocations w ++ [c] /\
  handler_state w2 = fst (fn (fst c) (snd c) (handler_state w)) /\
  frame_callbacks w2 = [] /\
  (snd (fn (fst c) (snd c) (handler_state w)) = Returned ->
   ticking w2 = false).
Proof.
  intros E Q w1 w2. subst w2 w1.
  rewrite (invoke_all_idle c cs w E Q).
  rewrite animation_frame_one with (cb := c) by reflexivity.
  unfold run_callback, apply_fn. simpl.
  destruct (fn (fst c) (snd c) (handler_state w)) as [h' []]; simpl;
    repeat split; auto; discriminate.
Qed.

(** C2: when the handler throws in its frame callback, [ticking]
    stays true, and from then on no wrapper call registers a callback
    and no frame runs the handler: the world does not change any
    more. *)
Theorem rafThrottle_dead_after_throw (w : world) (cb : This * Args) :
  ticking w = true -> frame_callbacks w = [cb] ->
  snd (fn (fst cb) (snd cb) (handler_state w)) = Threw ->
  let w' := animation_frame fn w in
  invocations w' = invocations w ++ [cb] /\
  ticking w' = true /\ frame_callbacks w' = [] /\
  forall es : list event,
    let w'' := run fn es w' in
    ticking w'' = true /\ frame_callbacks w'' = [] /\
    invocations w'' = invocations w' /\
    handler_state w'' = handler_state w'.
Proof.
  intros E Q T w'. subst w'.
  rewrite (animation_frame_one _ cb Q).
  unfold run_callback, apply_fn. simpl.
  destruct (fn (fst cb) (snd cb) (handler_state w)) as [h' r].
  simpl in T. subst r. simpl.
  repeat split; auto.
  all: rewrite stuck_run by (simpl; auto); simpl; auto.
Qed.

End Throttle.

(** C1, as stated, fails: two calls in one frame, the handler runs with
    the binding and arguments of the first call, not of the last. *)
Lemma rafThrottle_last_call_counterexample :
  let w := run record_args [Invoke 10 1; Invoke 20 2; AnimationFrame]
               (rafThrottle []) in
  invocations w = [(10, 1)] /\ handler_state w = [1] /\
  invocations w <> [(20, 2)].
Proof. vm_compute. repeat split. discriminate. Qed.

Lemma rafThrottle_once_per_frame_first_call_witness :
  let w := rafThrottle (This := nat) (Args := nat) (@nil nat) in
  let w2 := animation_frame record_args (invoke_all record_args [(10, 1); (20, 2)] w) in
  invocations w2 = [(10, 1)] /\ ticking w2 = false.
Proof.
  destruct (rafThrottle_once_per_frame_first_call record_args
              (rafThrottle []) (10, 1) [(20, 2)] eq_refl eq_refl)
    as (_ & I & _ & _ & T).
  split; [exact I | exact (T eq_refl)].
Defined.

Lemma rafThrottle_dead_after_throw_witness :
  let w := wrapper 10 1 (rafThrottle (This := nat) (Args := nat) (@nil nat)) in
  let es := [Invoke 20 2; AnimationFrame; Invoke 30 3; AnimationFrame] in
  invocations (run always_throws es (animation_frame always_throws w))
  = [(10, 1)].
Proof.
  intros w es.
  destruct (rafThrottle_dead_after_throw always_throws w (10, 1)
              eq_refl eq_refl eq_refl) as (I & _ & _ & F).
  destruct (F es) as (_ & _ & I' & _).
  rewrite I'. exact I.
Defined.

End RafFacts.

(* ================================================================== *)
(** ** Numbers: comparisons with 0 and 1 *)
(* ================================================================== *)

Module JsNumberFacts.
Import JsNumber.
Open Scope float_scope.

Ltac sf_simpl := cbv beta iota delta [SFcompare option_map CompOpp SFltb SFleb SFeqb sf0 sf1].

Lemma compare_cont_refl (p : positive) : PosDef.Pos.compare_cont Eq p p = Eq.
Proof. exact (Pos.compare_refl p). Qed.

Lemma compare_cont_antisym (p q : positive) :
  PosDef.Pos.compare_cont Eq p q = CompOpp (PosDef.Pos.compare_cont Eq q p).
Proof. exact (Pos.compare_antisym q p). Qed.

Lemma SFcompare_refl_nan (f : spec_float) :
  SFcompare f f = match f with S754_nan => None | _ => Some Eq end.
Proof.
  destruct f as [s|s| |s m e]; sf_simpl; try reflexivity.
  - destruct s; reflexivity.
  - rewrite Z.compare_refl, compare_cont_refl. destruct s; reflexivity.
Qed.

Lemma SFcompare_antisym_positive (m1 : positive) (e1 : Z) (f : spec_float) :
  SFcompare (S754_finite false m1 e1) f
  = option_map CompOpp (SFcompare f (S754_finite false m1 e1)).
Proof.
  destruct f as [s|s| |s m e]; sf_simpl; try reflexivity.
  - destruct s; reflexivity.
  - destruct s; try reflexivity.
    rewrite (Z.compare_antisym e e1), (compare_cont_antisym m1 m).
    destruct (e ?= e1)%Z; reflexivity.
Qed.

Lemma SFcompare_antisym_one (f : spec_float) :
  SFcompare sf1 f = option_map CompOpp (SFcompare f sf1).
Proof. apply SFcompare_antisym_positive. Qed.

Lemma SFcompare_antisym_zero (f : spec_float) :
  SFcompare sf0 f = option_map CompOpp (SFcompare f sf0).
Proof.
  destruct f as [s|s| |s m e]; sf_simpl; try reflexivity;
    destruct s; reflexivity.
Qed.

Lemma comparisons_of_cases (x : float) :
  In (comparisons_of x)
     [position_nan; position_neg; position_zero; position_mid; position_one;
      position_above].
Proof.
  unfold comparisons_of, is_nan.
  rewrite !ltb_spec, !leb_spec, !FloatAxioms.eqb_spec.
  change (Prim2SF 0) with sf0. change (Prim2SF 1) with sf1.
  unfold SFltb, SFleb, SFeqb.
  rewrite SFcompare_refl_nan, SFcompare_antisym_one, SFcompare_antisym_zero.
  destruct (Prim2SF x) as [[]|[]| |[] m e]; sf_simpl; cbn [negb In]; auto 10.
  destruct (e ?= -52)%Z; cbn [negb In]; auto 10.
  destruct (PosDef.Pos.compare_cont Eq m 4503599627370496); cbn [negb In]; auto 10.
Qed.

Lemma leb_zero_not_positive (x : float) :
  (x <=? 0) = true -> (0 <? x) = false.
Proof.
  rewrite leb_spec, ltb_spec. change (Prim2SF 0) with sf0.
  unfold SFleb, SFltb. rewrite SFcompare_antisym_zero.
  destruct (SFcompare (Prim2SF x) sf0) as [[]|]; sf_simpl; congruence.
Qed.

End JsNumberFacts.

(* ================================================================== *)
(** ** Header *)
(* ================================================================== *)

Module HeaderFacts.
Import JsString JsStringFacts Header.
Open Scope float_scope.

Lemma contains_In (cl : classList) (token : jsstring) :
  contains cl token = true <-> In token cl.
Proof.
  unfold contains. rewrite existsb_exists. split.
  - intros (t & I & E). apply eqb_eq in E. now subst.
  - intros I. exists token. split; [exact I | apply eqb_refl].
Qed.

Lemma contains_toggle (cl : classList) (token : jsstring) (force : bool) :
  contains (toggle cl token force) token = force.
Proof.
  unfold toggle. destruct force.
  - destruct (contains cl token) eqn:C; [exact C|].
    apply contains_In, in_or_app. right. now left.
  - destruct (contains (remove cl token) token) eqn:C; [|reflexivity].
    apply contains_In in C. unfold remove in C.
    apply filter_In in C. destruct C as [_ C].
    rewrite eqb_refl in C. discriminate.
Qed.

(** [toggle] leaves the other tokens alone. *)
Lemma contains_toggle_other (cl : classList) (token other : jsstring) force :
  other <> token ->
  contains (toggle cl token force) other = contains cl other.
Proof.
  intros NE. unfold toggle. destruct force.
  - destruct (contains cl token); [reflexivity|].
    unfold contains. rewrite existsb_app. simpl.
    apply eqb_neq in NE. rewrite NE. now rewrite !orb_false_r.
  - unfold contains, remove. induction cl as [|t cl IH]; simpl; [reflexivity|].
    destruct (JsString.eqb token t) eqn:E; simpl.
    + apply eqb_eq in E. subst t. apply eqb_neq in NE. now rewrite NE.
    + now rewrite IH.
Qed.

(** C6: after the header handler has run at offset [s], the header has
    the class "scrolled" exactly when [s > 50]; at 50 it is absent, at
    51 present. *)
Theorem header_scrolled_iff_above_50 :
  (forall p : page,
     In (lit "scrolled") (header_classList (onHeaderScroll_handler p))
     <-> (50 <? scrollY p) = true) /\
  (forall cl, ~ In (lit "scrolled")
                   (header_classList (onHeaderScroll_handler (mkPage 50 cl)))) /\
  (forall cl, In (lit "scrolled")
                 (header_classList (onHeaderScroll_handler (mkPage 51 cl)))).
Proof.
  assert (K : forall p : page,
             In (lit "scrolled") (header_classList (onHeaderScroll_handler p))
             <-> (50 <? scrollY p) = true).
  { intros p. rewrite <- contains_In. unfold onHeaderScroll_handler. simpl.
    now rewrite contains_toggle. }
  split; [exact K|]. split; intros cl.
  - rewrite K. simpl. discriminate.
  - rewrite K. reflexivity.
Qed.

(** Through the throttle: a scroll event on an idle wrapper followed by
    a frame leaves the page as the handler makes it. *)
Lemma onHeaderScroll_frame (p : page) :
  Raf.handler_state
    (Raf.run onHeaderScroll_fn [Raf.Invoke tt tt; Raf.AnimationFrame]
             (Raf.rafThrottle p))
  = onHeaderScroll_handler p.
Proof. reflexivity. Qed.

End HeaderFacts.

(* ================================================================== *)
(** ** Scroll indicator *)
(* ================================================================== *)

Module IndicatorFacts.
Import JsNumber JsNumberFacts Indicator.
Open Scope float_scope.

(** The comparisons of [x] with 0 and 1, read off its position. *)
Ltac position_facts C :=
  pose proof (f_equal c_nan C) as N; pose proof (f_equal c_lt0 C) as L0;
  pose proof (f_equal c_gt0 C) as G0; pose proof (f_equal c_lt1 C) as L1;
  pose proof (f_equal c_gt1 C) as G1; pose proof (f_equal c_ge0 C) as GE0;
  pose proof (f_equal c_le1 C) as LE1; pose proof (f_equal c_eq0 C) as E0;
  pose proof (f_equal c_eq1 C) as E1;
  cbv [c_nan c_lt0 c_gt0 c_lt1 c_gt1 c_ge0 c_le1 c_eq0 c_eq1 comparisons_of
       position_nan position_neg position_zero position_mid position_one
       position_above] in N, L0, G0, L1, G1, GE0, LE1, E0, E1;
  symmetry in N, L0, G0, L1, G1, GE0, LE1, E0, E1; clear C.

Lemma is_nan_false_eqb (x : float) : is_nan x = false -> (x =? x) = true.
Proof. unfold is_nan. now intros E%negb_false_iff. Qed.

(** What clamping to the unit interval does, case by case. *)
Lemma clamp_unit_cases (x : float) :
  (is_nan x = true -> is_nan (clamp x 0 1) = true) /\
  ((x <? 0) = true -> clamp x 0 1 = 0) /\
  ((1 <? x) = true -> clamp x 0 1 = 1) /\
  ((0 <=? x) = true -> (x <=? 1) = true -> (clamp x 0 1 =? x) = true).
Proof.
  pose proof (comparisons_of_cases x) as C. cbn [In] in C.
  pose proof (is_nan_false_eqb x) as R.
  unfold clamp, Math_max, Math_min.
  change (is_nan 0) with false. change (is_nan 1) with false.
  rewrite !orb_false_r.
  destruct C as [C|[C|[C|[C|[C|[C|[]]]]]]]; position_facts C;
    rewrite ?N, ?L0, ?G0; cbv beta iota;
    try destruct (get_sign x);
    rewrite ?N, ?L1, ?G1; cbv beta iota;
    repeat split; intros; try congruence; try reflexivity; auto.
Qed.

Lemma updateIndicator_scrollable (d : documentElement) :
  (0 <? scrollHeight d - clientHeight d) = true ->
  updateIndicator d =
  (ScaleX (clamp (((scrollTop d / (scrollHeight d - clientHeight d)) * 100)
                  / 100) 0 1),
   [scrollHeight d - clientHeight d; 100]).
Proof. intros G. unfold updateIndicator. rewrite G. reflexivity. Qed.

Lemma updateIndicator_not_scrollable (d : documentElement) :
  (0 <? scrollHeight d - clientHeight d) = false ->
  updateIndicator d = (ScaleX 0, [100]).
Proof. intros G. unfold updateIndicator. rewrite G. reflexivity. Qed.

(** C5 (amended): with [h = scrollHeight - clientHeight], when [h > 0]
    the factor written is [clamp(r, 0, 1)] for
    [r = ((scrollTop / h) * 100) / 100] as the code rounds it: 0 when
    [r < 0], 1 when [r > 1], and [r] itself in between.  When [h > 0]
    does not hold, in particular when [h <= 0], the factor is 0.  Every
    division the function evaluates has a positive divisor. *)
Theorem updateIndicator_scale (d : documentElement) :
  let h := scrollHeight d - clientHeight d in
  let r := ((scrollTop d / h) * 100) / 100 in
  ((0 <? h) = true ->
     scale d = clamp r 0 1 /\
     ((r <? 0) = true -> scale d = 0) /\
     ((1 <? r) = true -> scale d = 1) /\
     ((0 <=? r) = true -> (r <=? 1) = true -> (scale d =? r) = true)) /\
  ((0 <? h) = false -> scale d = 0) /\
  ((h <=? 0) = true -> scale d = 0) /\
  Forall (fun divisor => (0 <? divisor) = true) (snd (updateIndicator d)).
Proof.
  intros h r. subst h r. unfold scale.
  split; [|split; [|split]].
  - intros G. rewrite (updateIndicator_scrollable d G). cbn [fst factor_of].
    split; [reflexivity|]. apply clamp_unit_cases.
  - intros G. now rewrite (updateIndicator_not_scrollable d G).
  - intros L. apply leb_zero_not_positive in L.
    now rewrite (updateIndicator_not_scrollable d L).
  - destruct (0 <? scrollHeight d - clientHeight d) eqn:G.
    + rewrite (updateIndicator_scrollable d G).
      repeat constructor. exact G.
    + rewrite (updateIndicator_not_scrollable d G).
      repeat constructor.
Qed.

Lemma updateIndicator_scale_witness :
  scale scrolled_by_7 = clamp (((7 / (1600 - 600)) * 100) / 100) 0 1 /\
  (scale scrolled_by_7 =? ((7 / (1600 - 600)) * 100) / 100) = true.
Proof.
  destruct (updateIndicator_scale scrolled_by_7) as (S & _).
  destruct (S eq_refl) as (E & _ & _ & M).
  split; [exact E | exact (M eq_refl eq_refl)].
Defined.

(** C5, as stated, fails on the rounded numbers: for the page above the
    factor written is [0.007000000000000001], one unit in the last
    place above [clamp(7 / (1600 - 600), 0, 1)], which is the number
    nearest to [0.007]. *)
Lemma updateIndicator_scale_counterexample :
  scale scrolled_by_7 = 0x1.cac083126e97ap-8 /\
  clamp (scrollTop scrolled_by_7
         / (scrollHeight scrolled_by_7 - clientHeight scrolled_by_7)) 0 1
  = 0x1.cac083126e979p-8 /\
  (scale scrolled_by_7
   =? clamp (scrollTop scrolled_by_7
             / (scrollHeight scrolled_by_7 - clientHeight scrolled_by_7)) 0 1)
  = false.
Proof. vm_compute. repeat split. Qed.

(** Over exact rationals the detour through the percentage changes
    nothing: the factor is [clamp(scrollTop / h, 0, 1)] when [h > 0]
    and 0 otherwise. *)
Lemma Qlt_bool_iff (x y : Q) : Exact.Qlt_bool x y = true <-> (x < y)%Q.
Proof.
  unfold Exact.Qlt_bool. rewrite negb_true_iff.
  rewrite <- not_true_iff_false, Qle_bool_iff. split.
  - apply Qnot_le_lt.
  - apply Qlt_not_le.
Qed.

Lemma exact_clamp_compat (x y : Q) :
  (x == y)%Q -> (Exact.clamp x 0 1 == Exact.clamp y 0 1)%Q.
Proof.
  intros E. unfold Exact.clamp, Exact.Qmin, Exact.Qmax.
  rewrite (Qleb_comp x y E 0%Q 0%Q (Qeq_refl 0)).
  destruct (Qle_bool y 0); [reflexivity|].
  rewrite (Qleb_comp x y E 1%Q 1%Q (Qeq_refl 1)).
  destruct (Qle_bool y 1); [exact E | reflexivity].
Qed.

Lemma exact_scale_is_clamp (scrollTop scrollHeight clientHeight : Q) :
  ((0 < scrollHeight - clientHeight)%Q ->
   (Exact.scale scrollTop scrollHeight clientHeight
    == Exact.clamp (scrollTop / (scrollHeight - clientHeight)) 0 1)%Q) /\
  ((scrollHeight - clientHeight <= 0)%Q ->
   (Exact.scale scrollTop scrollHeight clientHeight == 0)%Q).
Proof.
  unfold Exact.scale. split; intros G.
  - pose proof G as B. apply Qlt_bool_iff in B. rewrite B.
    apply exact_clamp_compat. field.
    intros Z. rewrite Z in G. exact (Qlt_irrefl 0 G).
  - destruct (Exact.Qlt_bool 0 (scrollHeight - clientHeight)) eqn:B.
    + apply Qlt_bool_iff in B. exfalso. exact (Qlt_not_le _ _ B G).
    + reflexivity.
Qed.

End IndicatorFacts.

(* ================================================================== *)
(** ** Toasts *)
(* ================================================================== *)

Module ToastFacts.
Import JsString Toast.
Open Scope Z_scope.

Lemma In_remove_nth {A} (x : A) (n : nat) (l : list A) :
  In x (remove_nth n l) -> In x l.
Proof.
  revert n. induction l as [|y l IH]; intros [|n]; simpl; auto.
  intros [E|I]; [left; exact E | right; exact (IH n I)].
Qed.

Lemma in_document_app (id : nat) (w : world) (l : list toast) :
  existsb (fun t => Nat.eqb (tid t) id) (body w ++ l)
  = in_document id w || existsb (fun t => Nat.eqb (tid t) id) l.
Proof. unfold in_document. apply existsb_app. Qed.

Lemma existsb_remove_node_other (id other : nat) (l : list toast) :
  id <> other ->
  existsb (fun t => Nat.eqb (tid t) id) (remove_node other l)
  = existsb (fun t => Nat.eqb (tid t) id) l.
Proof.
  intros NE. unfold remove_node. induction l as [|t l IH]; simpl; [reflexivity|].
  destruct (Nat.eqb (tid t) other) eqn:E; simpl.
  - apply Nat.eqb_eq in E.
    assert (N : Nat.eqb (tid t) id = false) by (apply Nat.eqb_neq; congruence).
    rewrite N. exact IH.
  - now rewrite IH.
Qed.

Lemma invariant_init : invariant init.
Proof. constructor; simpl; intros; contradiction. Qed.

Lemma invariant_showToast (message type : jsstring) (w : world) :
  invariant w -> invariant (showToast message type w).
Proof.
  intros [F U Ti Ex P]. constructor; simpl.
  - intros id T [E|I].
    + injection E as <- _. lia.
    + specialize (F id T I). lia.
  - intros id T T' [E|I] [E'|I'].
    + congruence.
    + injection E as <- _. specialize (F _ _ I'). lia.
    + injection E' as <- _. specialize (F _ _ I). lia.
    + exact (U id T T' I I').
  - intros due id I. apply in_app_or in I. destruct I as [I|[E|[]]].
    + right. exact (Ti due id I).
    + left. injection E as <- <-. f_equal. lia.
  - intros id f I. apply in_app_or in I. destruct I as [I|[E|[]]].
    + destruct (Ex id f I) as (S & T & C & B).
      split; [exact S|]. exists T. split; [right; exact C | exact B].
    + discriminate E.
  - intros id T I B. unfold in_document. simpl. rewrite in_document_app.
    destruct I as [E|I].
    + injection E as <- _. simpl. rewrite Nat.eqb_refl. apply orb_true_r.
    + rewrite (P id T I B). reflexivity.
Qed.

Lemma invariant_elapse (d : Z) (w w' : world) :
  invariant w -> elapse d w = Some w' -> invariant w'.
Proof.
  intros [F U Ti Ex P]. unfold elapse.
  destruct (0 <=? d) eqn:D; [|discriminate]. apply Z.leb_le in D.
  intros E. injection E as <-. constructor; simpl; auto.
  - intros id f I. destruct (Ex id f I) as (S & R). split; [lia | exact R].
  - intros id T I B. apply (P id T I). lia.
Qed.

Lemma invariant_fire_timer (n : nat) (w w' : world) :
  invariant w -> fire_timer n w = Some w' -> invariant w'.
Proof.
  intros [F U Ti Ex P]. unfold fire_timer.
  destruct (nth_error (timers w) n) as [[due id]|] eqn:N; [|discriminate].
  destruct (due <=? now w) eqn:D; [|discriminate]. apply Z.leb_le in D.
  intros E. injection E as <-. constructor; simpl; auto.
  - intros due' id' I. apply In_remove_nth in I. exact (Ti due' id' I).
  - intros id' f I. apply in_app_or in I. destruct I as [I|[E|[]]].
    + exact (Ex id' f I).
    + injection E as <- <-. split; [lia|].
      exists (due - dwell). split.
      * apply Ti. exact (nth_error_In _ _ N).
      * lia.
Qed.

Lemma invariant_complete_tween (n : nat) (w w' : world) :
  invariant w -> complete_tween n w = Some w' -> invariant w'.
Proof.
  intros [F U Ti Ex P]. unfold complete_tween.
  destruct (nth_error (tweens w) n) as [t|] eqn:N; [|discriminate].
  destruct (finish_of t <=? now w) eqn:D; [|discriminate]. apply Z.leb_le in D.
  intros E. injection E as <-. constructor; simpl; auto.
  - intros id f I. apply In_remove_nth in I. exact (Ex id f I).
  - intros id T I B. unfold in_document. simpl.
    destruct t as [target f|target f]; [exact (P id T I B)|].
    simpl in D.
    destruct (Ex target f (nth_error_In _ _ N)) as (_ & T' & C & L).
    assert (NE : id <> target).
    { intros ->. rewrite (U target T T' I C) in B. lia. }
    rewrite (existsb_remove_node_other id target (body w) NE).
    exact (P id T I B).
Qed.

Lemma invariant_step (e : event) (w w' : world) :
  invariant w -> step e w = Some w' -> invariant w'.
Proof.
  intros I. destruct e as [m t|d|n|n]; simpl.
  - intros E. injection E as <-. apply invariant_showToast, I.
  - apply invariant_elapse, I.
  - apply invariant_fire_timer, I.
  - apply invariant_complete_tween, I.
Qed.

Lemma invariant_run (es : list event) (w w' : world) :
  invariant w -> run es w = Some w' -> invariant w'.
Proof.
  revert w. induction es as [|e es IH]; simpl; intros w I.
  - intros E. injection E as <-. exact I.
  - destruct (step e w) as [w1|] eqn:S; [|discriminate].
    apply IH. exact (invariant_step e w w1 I S).
Qed.

Lemma invariant_reachable (w : world) : reachable w -> invariant w.
Proof. intros [es R]. exact (invariant_run es init w invariant_init R). Qed.

(** [showToast] at time [T] puts a new node into the document and
    records it. *)
Lemma showToast_creates (message type : jsstring) (w : world) :
  let w' := showToast message type w in
  In (next_id w, now w) (created w') /\
  body w' = body w ++ [mkToast (next_id w) message
                               (base_class ++ type_class type)] /\
  In (now w + 3000, next_id w) (timers w').
Proof.
  simpl. split; [now left|]. split; [reflexivity|].
  apply in_or_app. right. now left.
Qed.

(** C10: a toast created at time [T] is in the document at every time
    before [T + 3000], and its exit tween has not been started then;
    when it is no longer in the document, the time is at least
    [T + 3000 + 500]. *)
Theorem toast_stays_for_dwell (w : world) (id : nat) (T : Z) :
  reachable w -> In (id, T) (created w) ->
  (now w < T + 3000 ->
   in_document id w = true /\ forall f, ~ In (Exit id f) (tweens w)) /\
  (in_document id w = false -> T + 3000 + 500 <= now w).
Proof.
  intros R C. apply invariant_reachable in R. destruct R as [F U Ti Ex P].
  split.
  - intros B. split.
    + apply (P id T C). unfold dwell, exit_duration. lia.
    + intros f I. destruct (Ex id f I) as (S & T' & C' & L).
      rewrite (U id T T' C C') in B. unfold dwell, exit_duration in *. lia.
  - intros A. destruct (Z_lt_le_dec (now w) (T + 3000 + 500)) as [B|B];
      [|exact B].
    rewrite (P id T C B) in A. discriminate.
Qed.

(** A toast shown at time 100, looked at 2999 ms later. *)
Lemma toast_stays_for_dwell_witness :
  in_document 0 (world_after [Elapse 100; Show (lit "saved") (lit "success");
                              Elapse 2999]) = true.
Proof.
  refine (proj1 (proj1 (toast_stays_for_dwell
                          (world_after [Elapse 100;
                                        Show (lit "saved") (lit "success");
                                        Elapse 2999]) 0%nat 100 _ _) _)).
  - exists [Elapse 100; Show (lit "saved") (lit "success"); Elapse 2999].
    reflexivity.
  - left. reflexivity.
  - reflexivity.
Defined.

(** When the host runs the timer and the engine completes the tweens
    as soon as they are due, the toast leaves the document at
    [T + 3000 + 500]: it is there just before, gone just after. *)
Lemma toast_removed_on_time (message type : jsstring) :
  let before := world_after [Elapse 100; Show message type; Elapse 3000;
                             FireTimer 0; Elapse 499] in
  let after := world_after [Elapse 100; Show message type; Elapse 3000;
                            FireTimer 0; Elapse 500; CompleteTween 1] in
  in_document 0 before = true /\ complete_tween 1 before = None /\
  in_document 0 after = false /\ now after = 100 + 3000 + 500.
Proof. repeat split. Qed.

(** Before the dwell time is over the host cannot run the timer. *)
Lemma timer_not_early (message type : jsstring) :
  fire_timer 0 (world_after [Elapse 100; Show message type; Elapse 2999])
  = None.
Proof. reflexivity. Qed.

End ToastFacts.

(* ================================================================== *)
(** ** Contact form *)
(* ================================================================== *)

Module ContactFormFacts.
Import JsString ContactForm.
Open Scope Z_scope.

Lemma submit_begin_button (p : page) (b : button) :
  submitButton p = Some b ->
  submit_begin p
  = Awaiting (mkPage (controls p) (Some (mkButton true (lit "Sending...")))
                     true (form_tweens p) (console_errors p) (toasts p)).
Proof. intros E. unfold submit_begin. simpl. rewrite E. reflexivity. Qed.


Lemma submit_with_button (r : fetch_result) (p : page) (b : button) :
  submitButton p = Some b ->
  submit r p
  = Some (submit_resume r
            (mkPage (controls p) (Some (mkButton true (lit "Sending...")))
                    true (form_tweens p) (console_errors p) (toasts p))).
Proof.
  intros E. unfold submit. now rewrite (submit_begin_button p b E).
Qed.

Lemma messages_distinct :
  network_message <> rejected_message /\
  network_message <> success_message /\
  rejected_message <> success_message.
Proof. repeat split; discriminate. Qed.

(** C3: what the listener does is decided by the result of the fetch.
    A response with ok status: the success toast (green, "Message sent
    successfully!") is added, no error toast, and the controls are
    reset: every control holds its default value, names and defaults
    kept.  A response with another status: the error toast (red,
    "Something went wrong. Please try again.") is added, the controls
    keep their values.  A fetch that throws: the error toast (red,
    "Network error. Please try again later."), with a different text,
    is added, the controls keep their values. *)
Theorem submit_outcome (r : fetch_result) (p : page) (b : button) :
  submitButton p = Some b ->
  exists p', submit r p = Some p' /\
  match r with
  | Response status =>
      if ok status
      then Toast.body (toasts p')
           = Toast.body (toasts p)
             ++ [toast_of success_message (lit "success") p] /\
           is_success_toast (toast_of success_message (lit "success") p) = true /\
           is_error_toast (toast_of success_message (lit "success") p) = false /\
           controls p' = map reset_control (controls p) /\
           (Toast.textContent (toast_of success_message (lit "success") p)
            = 9989%N :: lit " Message sent successfully!" /\
            Toast.className (toast_of success_message (lit "success") p)
            = Toast.base_class ++ lit "bg-green-600") /\
           (map value (controls p') = map defaultValue (controls p) /\
            map defaultValue (controls p') = map defaultValue (controls p) /\
            map name (controls p') = map name (controls p))
      else Toast.body (toasts p')
           = Toast.body (toasts p)
             ++ [toast_of rejected_message (lit "error") p] /\
           is_error_toast (toast_of rejected_message (lit "error") p) = true /\
           controls p' = controls p /\
           (Toast.textContent (toast_of rejected_message (lit "error") p)
            = 10060%N :: lit " Something went wrong. Please try again." /\
            Toast.className (toast_of rejected_message (lit "error") p)
            = Toast.base_class ++ lit "bg-red-600")
  | FetchError error =>
      Toast.body (toasts p')
      = Toast.body (toasts p) ++ [toast_of network_message (lit "error") p] /\
      is_error_toast (toast_of network_message (lit "error") p) = true /\
      network_message <> rejected_message /\
      controls p' = controls p /\
      (Toast.textContent (toast_of network_message (lit "error") p)
       = 9888%N :: 65039%N :: lit " Network error. Please try again later." /\
       Toast.className (toast_of network_message (lit "error") p)
       = Toast.base_class ++ lit "bg-red-600")
  end.
Proof.
  intros E. eexists. split; [exact (submit_with_button r p b E)|].
  destruct r as [status|error]; unfold submit_resume, try_block, catch_block.
  - destruct (ok status); cbn -[lit Toast.base_class Toast.type_class
                                is_success_toast is_error_toast];
      repeat split; try reflexivity.
    all: rewrite !map_map; reflexivity.
  - cbn -[lit Toast.base_class Toast.type_class is_error_toast
          network_message rejected_message].
    repeat split; try reflexivity. discriminate.
Qed.

(** C4: whatever the result of the fetch, when the listener completes
    the submit button is enabled and reads "Send Message"; while the
    fetch was pending it was disabled and read "Sending...". *)
Theorem submit_restores_button (r : fetch_result) (p : page) (b : button) :
  submitButton p = Some b ->
  (exists p1, submit_begin p = Awaiting p1 /\
              submitButton p1 = Some (mkButton true (lit "Sending..."))) /\
  (exists p', submit r p = Some p' /\
              submitButton p' = Some (mkButton false (lit "Send Message"))).
Proof.
  intros E. split.
  - eexists. split; [exact (submit_begin_button p b E) | reflexivity].
  - eexists. split; [exact (submit_with_button r p b E) | reflexivity].
Qed.

(** A filled-in form: answered with 200 the control goes back to its
    default (the empty string) and the green toast is shown; answered
    with 422 the control keeps what was typed and the red toast is
    shown. *)
Lemma submit_outcome_witness :
  (exists p', submit (Response 200) filled_form = Some p' /\
              map value (controls filled_form) = [lit "ada@example.org"] /\
              map value (controls p') = [lit ""] /\
              map Toast.className (Toast.body (toasts p'))
              = [Toast.base_class ++ lit "bg-green-600"]) /\
  (exists p', submit (Response 422) filled_form = Some p' /\
              controls p' = controls filled_form /\
              map Toast.textContent (Toast.body (toasts p'))
              = [rejected_message]).
Proof.
  split.
  - destruct (submit_outcome (Response 200) filled_form _ eq_refl)
      as (p' & S & O).
    change (ok 200) with true in O. cbv iota in O.
    destruct O as (B & _ & _ & _ & (_ & K) & (V & _)).
    exists p'. split; [exact S|]. split; [reflexivity|].
    split; [exact V|]. rewrite B. cbn [Toast.body toasts filled_form Toast.init app map].
    now rewrite K.
  - destruct (submit_outcome (Response 422) filled_form _ eq_refl)
      as (p' & S & O).
    change (ok 422) with false in O. cbv iota in O.
    destruct O as (B & _ & C & _).
    exists p'. split; [exact S|]. split; [exact C|].
    rewrite B. reflexivity.
Defined.

(** The same form when the fetch throws. *)
Lemma submit_restores_button_witness :
  exists p', submit (FetchError (lit "TypeError: Failed to fetch")) filled_form
             = Some p' /\
             submitButton p' = Some (mkButton false (lit "Send Message")).
Proof.
  exact (proj2 (submit_restores_button
                  (FetchError (lit "TypeError: Failed to fetch")) filled_form
                  _ eq_refl)).
Defined.

End ContactFormFacts.

(* ================================================================== *)
(** ** Project modal *)
(* ================================================================== *)

Module ModalFacts.
Import JsString JsStringFacts Modal.

Lemma fold_left_append_spans (stack : list jsstring) (acc : list node) :
  fold_left (fun children tech => children ++ [Span span_class tech]) stack acc
  = acc ++ map (Span span_class) stack.
Proof.
  revert acc. induction stack as [|t stack IH]; intros acc; simpl.
  - now rewrite app_nil_r.
  - rewrite IH, <- app_assoc. reflexivity.
Qed.

Lemma render_stack_labels (stack : list jsstring) :
  stack <> [] -> render_stack stack = map (Span span_class) stack.
Proof.
  destruct stack as [|t stack]; [congruence|]. intros _.
  unfold render_stack. now rewrite fold_left_append_spans.
Qed.

Lemma stack_of_nonempty (c : card) (s : jsstring) :
  data_stack c = Some s -> s <> [] -> stack_of c = map trim (split comma s).
Proof.
  intros E NE. unfold stack_of. rewrite E.
  destruct s; [congruence | reflexivity].
Qed.

Lemma card_click_complete (c : card) (p : page) :
  has_modal_elements p = true ->
  card_click c p
  = (mkPage (Some (lit "block"))
            (Some (or_default (data_title c) (lit "Project Details")))
            (Some (or_default (data_description c)
                              (lit "No description available.")))
            (Some (render_stack (stack_of c)))
            (closeModal p) (lit "hidden") (closeModal p || close_focused p),
     Raf.Returned).
Proof.
  unfold has_modal_elements, card_click.
  destruct (modalTitle p), (modalDescription p), (modalStackContainer p),
    (modal p); cbn [modalTitle modalDescription modalStackContainer modal
                    closeModal body_overflow close_focused];
    try discriminate; try (destruct (modal p); discriminate).
  all: try reflexivity.
Qed.

(** C7: on a page that has the modal elements, a card with
    [data-stack="Go, React"] gives the two labels "Go" and "React" in
    that order; a card without [data-stack] gives the placeholder text;
    an absent title or description gives the default texts. *)
Theorem card_click_renders (c : card) (p : page) :
  has_modal_elements p = true ->
  let p' := fst (card_click c p) in
  snd (card_click c p) = Raf.Returned /\
  (data_stack c = Some (lit "Go, React") ->
   modalStackContainer p'
   = Some [Span span_class (lit "Go"); Span span_class (lit "React")]) /\
  (data_stack c = None ->
   modalStackContainer p' = Some [Text (lit "Tech stack not specified.")]) /\
  (data_title c = None -> modalTitle p' = Some (lit "Project Details")) /\
  (data_description c = None ->
   modalDescription p' = Some (lit "No description available.")) /\
  (forall t, data_title c = Some t -> t <> [] -> modalTitle p' = Some t) /\
  (forall t, data_description c = Some t -> t <> [] ->
             modalDescription p' = Some t).
Proof.
  intros E p'. subst p'. rewrite (card_click_complete c p E).
  cbn [fst snd modalStackContainer modalTitle modalDescription].
  split; [reflexivity|]. unfold stack_of, or_default.
  repeat split.
  - intros ->. reflexivity.
  - intros ->. reflexivity.
  - intros ->. reflexivity.
  - intros ->. reflexivity.
  - intros t -> NE. destruct t; [congruence | reflexivity].
  - intros t -> NE. destruct t; [congruence | reflexivity].
Qed.

Lemma card_click_renders_witness :
  modalStackContainer
    (fst (card_click (card_with_stack (Some (lit "Go, React"))) closed_page))
  = Some [Span span_class (lit "Go"); Span span_class (lit "React")] /\
  modalStackContainer (fst (card_click (card_with_stack None) closed_page))
  = Some [Text (lit "Tech stack not specified.")].
Proof.
  split.
  - exact (proj1 (proj2 (card_click_renders
                           (card_with_stack (Some (lit "Go, React")))
                           closed_page eq_refl)) eq_refl).
  - exact (proj1 (proj2 (proj2 (card_click_renders (card_with_stack None)
                                                   closed_page eq_refl)))
                 eq_refl).
Defined.

(** C8: a non-empty [data-stack] gives one label per piece between
    commas, a piece that trims to the empty string included, so one
    more label than there are commas; the placeholder is rendered
    exactly when [data-stack] is absent or empty. *)
Theorem card_click_keeps_empty_labels (c : card) (p : page) :
  has_modal_elements p = true ->
  let p' := fst (card_click c p) in
  (forall s, data_stack c = Some s -> s <> [] ->
     modalStackContainer p'
     = Some (map (fun piece => Span span_class (trim piece)) (split comma s)) /\
     option_map (@List.length node) (modalStackContainer p')
     = Some (S (count_sep comma s))) /\
  (modalStackContainer p' = Some [Text placeholder]
   <-> data_stack c = None \/ data_stack c = Some []) /\
  (data_stack c = Some (lit "Go,,React") ->
   modalStackContainer p'
   = Some [Span span_class (lit "Go"); Span span_class [];
           Span span_class (lit "React")]) /\
  (data_stack c = Some (lit ",") ->
   modalStackContainer p' = Some [Span span_class []; Span span_class []]).
Proof.
  intros E p'. subst p'. rewrite (card_click_complete c p E).
  cbn [fst modalStackContainer].
  assert (K : forall s, data_stack c = Some s -> s <> [] ->
              render_stack (stack_of c)
              = map (fun piece => Span span_class (trim piece))
                    (split comma s)).
  { intros s D NE. rewrite (stack_of_nonempty c s D NE).
    rewrite render_stack_labels.
    - apply map_map.
    - pose proof (split_not_nil comma s) as N.
      destruct (split comma s); [contradiction | discriminate]. }
  split; [|split; [|split]].
  - intros s D NE. rewrite (K s D NE). split; [reflexivity|].
    cbn [option_map]. now rewrite length_map, split_length.
  - split.
    + intros R. destruct (data_stack c) as [s|] eqn:D; [|now left].
      destruct s as [|u s]; [now right|]. exfalso.
      rewrite (K (u :: s) eq_refl) in R by discriminate.
      pose proof (split_not_nil comma (u :: s)) as N.
      destruct (split comma (u :: s)); [contradiction | discriminate].
    + unfold stack_of. intros [-> | ->]; reflexivity.
  - intros D. rewrite (K _ D) by discriminate. reflexivity.
  - intros D. rewrite (K _ D) by discriminate. reflexivity.
Qed.

Lemma card_click_keeps_empty_labels_witness :
  modalStackContainer
    (fst (card_click (card_with_stack (Some (lit "Go,,React"))) closed_page))
  = Some [Span span_class (lit "Go"); Span span_class [];
          Span span_class (lit "React")].
Proof.
  exact (proj1 (proj2 (proj2 (card_click_keeps_empty_labels
                                (card_with_stack (Some (lit "Go,,React")))
                                closed_page eq_refl))) eq_refl).
Defined.

Lemma is_open_block (p : page) :
  is_open p = true <-> modal p = Some (lit "block").
Proof.
  unfold is_open. destruct (modal p) as [d|]; [|split; discriminate].
  rewrite eqb_eq. split; congruence.
Qed.

(** C9: Escape on an open modal sets its display to "none" and the
    overflow of the body to the empty string, and changes nothing
    else; Escape on a modal that is not open changes nothing. *)
Theorem escape_closes_open_modal (p : page) :
  (modal p = Some (lit "block") ->
   keydown (lit "Escape") p
   = mkPage (Some (lit "none")) (modalTitle p) (modalDescription p)
            (modalStackContainer p) (closeModal p) (lit "") (close_focused p)) /\
  (is_open p = false -> keydown (lit "Escape") p = p).
Proof.
  unfold keydown, is_open, hideModal.
  change (JsString.eqb (lit "Escape") (lit "Escape")) with true.
  cbn [orb]. split.
  - intros ->. reflexivity.
  - destruct (modal p) as [d|]; [|reflexivity]. now intros ->.
Qed.

Lemma escape_closes_open_modal_witness :
  let opened := fst (card_click (card_with_stack None) closed_page) in
  modal (keydown (lit "Escape") opened) = Some (lit "none") /\
  body_overflow (keydown (lit "Escape") opened) = lit "" /\
  keydown (lit "Escape") closed_page = closed_page.
Proof.
  intros opened. split; [|split].
  - now rewrite (proj1 (escape_closes_open_modal opened) eq_refl).
  - now rewrite (proj1 (escape_closes_open_modal opened) eq_refl).
  - exact (proj2 (escape_closes_open_modal closed_page) eq_refl).
Defined.

(** The other ways to close, and the keys that do nothing. *)
Lemma esc_closes_open_modal (p : page) :
  keydown (lit "Esc") p = keydown (lit "Escape") p.
Proof. reflexivity. Qed.

Lemma other_key_ignored (key : jsstring) (p : page) :
  key <> lit "Escape" -> key <> lit "Esc" -> keydown key p = p.
Proof.
  intros A B. unfold keydown.
  apply eqb_neq in A. apply eqb_neq in B. now rewrite A, B.
Qed.

End ModalFacts.

(* ================================================================== *)
(** ** rafThrottle: whole runs *)
(* ================================================================== *)

Module RafRuns.
Import Raf RafTrace RafFacts.

Section Runs.
Context {This Args H : Type}.
Variable fn : This -> Args -> H -> H * completion.

Local Abbreviation world := (@Raf.world This Args H).
Local Abbreviation event := (@Raf.event This Args).

Lemma run_app (es es' : list event) (w : world) :
  run fn (es ++ es') w = run fn es' (run fn es w).
Proof. unfold run. apply fold_left_app. Qed.

(** A frame calls the handler once for each registered callback,
    whether it throws or not, and leaves none registered. *)
Lemma fold_callbacks (cbs : list (This * Args)) (w : world) :
  let w' := fold_left (fun acc cb => run_callback fn cb acc) cbs w in
  invocations w' = invocations w ++ cbs /\
  frame_callbacks w' = frame_callbacks w.
Proof.
  revert w. induction cbs as [|cb cbs IH]; intros w; simpl.
  - now rewrite app_nil_r.
  - destruct (IH (run_callback fn cb w)) as [I Q]. rewrite I, Q.
    unfold run_callback, apply_fn.
    destruct (fn (fst cb) (snd cb) (handler_state w)) as [h' []]; simpl;
      now rewrite <- app_assoc.
Qed.

Lemma animation_frame_invocations (w : world) :
  invocations (animation_frame fn w) = invocations w ++ frame_callbacks w /\
  frame_callbacks (animation_frame fn w) = [].
Proof.
  unfold animation_frame.
  destruct (fold_callbacks (frame_callbacks w)
              (mkWorld (ticking w) [] (handler_state w) (invocations w)
                       (uncaught w))) as [I Q].
  split; [exact I | exact Q].
Qed.

Lemma wrapper_callbacks (w : world) this args :
  frame_callbacks (wrapper this args w) = frame_callbacks w \/
  frame_callbacks (wrapper this args w) = frame_callbacks w ++ [(this, args)].
Proof. unfold wrapper. destruct (ticking w); simpl; auto. Qed.

(** Whatever is invoked or registered in a run was registered before
    or is the binding and arguments of a wrapper call of the run. *)
Lemma run_calls_origin (es : list event) (w : world) (c : This * Args) :
  In c (invocations (run fn es w) ++ frame_callbacks (run fn es w)) ->
  In c (invocations w ++ frame_callbacks w) \/ In c (calls_of es).
Proof.
  unfold run. revert w. induction es as [|e es IH]; intros w; simpl.
  - now left.
  - intros I. destruct (IH _ I) as [J|J]; [|destruct e; simpl; auto].
    destruct e as [this args|]; simpl in J.
    + destruct (wrapper_deferred w this args) as (E & _). rewrite E in J.
      destruct (wrapper_callbacks w this args) as [Q|Q]; rewrite Q in J.
      * now left.
      * rewrite app_assoc in J. apply in_app_or in J.
        destruct J as [J|[<-|[]]]; [now left | right; now left].
    + destruct (animation_frame_invocations w) as [E Q].
      rewrite E, Q, app_nil_r in J. now left.
Qed.

(** X1: the handler is only ever run with the binding and arguments of
    a call that was made to the wrapper. *)
Theorem rafThrottle_invokes_only_calls (es : list event) (h : H)
    (c : This * Args) :
  In c (invocations (run fn es (rafThrottle h))) -> In c (calls_of es).
Proof.
  intros I.
  destruct (run_calls_origin es (rafThrottle h) c) as [[]|J]; [|exact J].
  apply in_or_app. now left.
Qed.

(** X2: from a new wrapper, a run with [n] animation frames runs the
    handler at most [n] times, however many calls are made and whether
    or not the handler throws. *)
Theorem rafThrottle_at_most_once_per_frame (es : list event) (h : H) :
  List.length (invocations (run fn es (rafThrottle h))) <= count_frames es.
Proof.
  assert (G : forall (es : list event) (w : world),
             phase w ->
             List.length (invocations (run fn es w))
             <= List.length (invocations w) + count_frames es).
  { clear es. unfold run, count_frames.
    induction es as [|e es IH]; intros w P; simpl; [lia|].
    pose proof (step_phase fn w e P) as P'. specialize (IH _ P').
    destruct e as [this args|]; simpl in *.
    - destruct (wrapper_deferred w this args) as (E & _).
      rewrite E in IH. exact IH.
    - destruct (animation_frame_invocations w) as [E _].
      rewrite E, length_app in IH.
      destruct P as [_ Q | cb _ Q | _ Q]; rewrite Q in IH; simpl in IH; lia. }
  apply (G es (rafThrottle h)). now apply Idle.
Qed.

(** A wrapper that is not stuck: [ticking] says whether a callback is
    registered. *)
Definition in_step (w : world) : Prop :=
  (ticking w = false /\ frame_callbacks w = []) \/
  (ticking w = true /\ exists cb, frame_callbacks w = [cb]).

Lemma in_step_step (e : event) (w : world) :
  (forall this args h, snd (fn this args h) = Returned) ->
  in_step w ->
  in_step (step fn w e) /\
  uncaught (step fn w e) = uncaught w /\
  List.length (invocations (step fn w e))
  = List.length (invocations w)
    + (if is_frame e then (if ticking w then 1 else 0) else 0) /\
  ticking (step fn w e) = (if is_frame e then false else true).
Proof.
  intros R [[T Q]|[T [cb Q]]]; destruct e as [this args|]; simpl.
  - rewrite (wrapper_idle w this args T), Q. simpl.
    repeat split; try lia. right. split; [reflexivity|]. now exists (this, args).
  - rewrite (animation_frame_none fn w Q), T.
    repeat split; try lia. left. now split.
  - rewrite (wrapper_ticking w this args T).
    repeat split; try lia; [|exact T]. right. split; [exact T|]. now exists cb.
  - rewrite (animation_frame_one fn w cb Q), T.
    unfold run_callback, apply_fn. simpl.
    specialize (R (fst cb) (snd cb) (handler_state w)).
    destruct (fn (fst cb) (snd cb) (handler_state w)) as [h' r].
    simpl in R. subst r. simpl. rewrite length_app. simpl.
    repeat split; try lia. left. now split.
Qed.

Lemma in_step_run (es : list event) (w : world) :
  (forall this args h, snd (fn this args h) = Returned) ->
  in_step w ->
  in_step (run fn es w) /\
  uncaught (run fn es w) = uncaught w /\
  List.length (invocations (run fn es w))
  = List.length (invocations w) + busy_frames (ticking w) es.
Proof.
  intros R. unfold run. revert w.
  induction es as [|e es IH]; intros w S; simpl.
  - repeat split; [exact S | lia].
  - destruct (in_step_step e w R S) as (S' & U & L & T).
    destruct (IH _ S') as (S'' & U' & L').
    split; [exact S''|]. split; [congruence|].
    rewrite L', L, T. destruct e; simpl; lia.
Qed.

(** X3: with a handler that never throws, the wrapper never gets
    stuck: after any run, [ticking] is true exactly when one callback
    is registered, no exception has reached the browser, and the
    handler has run once for each frame that came after at least one
    call since the frame before. *)
Theorem rafThrottle_runs_every_busy_frame (es : list event) (h : H) :
  (forall this args h, snd (fn this args h) = Returned) ->
  let w := run fn es (rafThrottle h) in
  List.length (invocations w) = busy_frames false es /\
  uncaught w = 0 /\
  ((ticking w = false /\ frame_callbacks w = []) \/
   (ticking w = true /\ exists cb, frame_callbacks w = [cb])).
Proof.
  intros R w. subst w.
  destruct (in_step_run es (rafThrottle h) R) as (S & U & L).
  - left. now split.
  - split; [exact L|]. split; [exact U | exact S].
Qed.

End Runs.

Lemma rafThrottle_runs_every_busy_frame_witness :
  List.length
    (invocations
       (run record_args
            [Invoke 1 1; Invoke 2 2; AnimationFrame; AnimationFrame;
             Invoke 3 3; AnimationFrame]
            (rafThrottle [])))
  = 2.
Proof.
  exact (proj1 (rafThrottle_runs_every_busy_frame record_args
                  [Invoke 1 1; Invoke 2 2; AnimationFrame; AnimationFrame;
                   Invoke 3 3; AnimationFrame] []
                  (fun _ _ _ => eq_refl))).
Defined.

Lemma rafThrottle_invokes_only_calls_witness :
  In (1, 1) (calls_of [Invoke 1 1; Invoke 2 2;
                       @AnimationFrame nat nat]).
Proof.
  apply (rafThrottle_invokes_only_calls record_args _ []).
  left. reflexivity.
Defined.

End RafRuns.

(* ================================================================== *)
(** ** Header and indicator behind their throttles *)
(* ================================================================== *)

Module ScrollPageFacts.
Import JsString Raf RafFacts RafRuns ScrollPage.
Open Scope float_scope.

(** A listener is settled when its wrapper is not stuck and, unless a
    callback is registered, what it maintains shows the position of the
    document. *)
Definition settled (fn : unit -> unit -> dom -> dom * completion)
    (current : dom -> Prop) (s : dom) (w : option throttle) : Prop :=
  match w with
  | Some w => in_step w /\ (ticking w = false -> current s)
  | None => True
  end.

Definition header_current (s : dom) : Prop :=
  Header.contains (header_classList s) (lit "scrolled")
  = (50 <? window_scrollY s).

Definition indicator_current (s : dom) : Prop :=
  indicator_transform s
  = Some (fst (Indicator.updateIndicator (documentElement s))).

Definition well_kept (p : page) : Prop :=
  settled header_fn header_current (document p) (onHeaderScroll p) /\
  settled indicator_fn indicator_current (document p) (onIndicatorScroll p).

Lemma header_fn_current (s : dom) : header_current (fst (header_fn tt tt s)).
Proof.
  unfold header_current, header_fn, Header.onHeaderScroll_handler. simpl.
  apply HeaderFacts.contains_toggle.
Qed.

Lemma indicator_fn_current (s : dom) :
  indicator_current (fst (indicator_fn tt tt s)).
Proof. reflexivity. Qed.

Lemma in_step_on_document (s : dom) (w : throttle) :
  in_step w -> in_step (on_document s w).
Proof. intros S. exact S. Qed.

(** A wrapper's share of a frame: if a callback was registered the
    handler has run on the document, otherwise the document is as it
    was; either way nothing is registered afterwards. *)
Lemma frame_of_cases (fn : unit -> unit -> dom -> dom * completion)
    (s : dom) (w : throttle) :
  (forall this args h, snd (fn this args h) = Returned) ->
  in_step w ->
  exists w', frame_of fn s (Some w) = (handler_state w', Some w') /\
             ticking w' = false /\ frame_callbacks w' = [] /\
             (handler_state w' = s /\ ticking w = false \/
              handler_state w' = fst (fn tt tt s) /\ ticking w = true).
Proof.
  intros R [[T Q]|[T [cb Q]]]; simpl; eexists; (split; [reflexivity|]).
  - rewrite (animation_frame_none fn (on_document s w) Q).
    simpl. repeat split; auto.
  - rewrite (animation_frame_one fn (on_document s w) cb Q).
    unfold run_callback, apply_fn. simpl.
    specialize (R (fst cb) (snd cb) s). destruct cb as [[] []]. simpl in *.
    destruct (fn tt tt s) as [h' r]. simpl in R. subst r. simpl.
    repeat split; auto.
Qed.

Lemma header_fn_returns : forall this args h, snd (header_fn this args h) = Returned.
Proof. reflexivity. Qed.

Lemma indicator_fn_returns :
  forall this args h, snd (indicator_fn this args h) = Returned.
Proof. reflexivity. Qed.

Lemma settled_wrapper (fn : unit -> unit -> dom -> dom * completion)
    (current : dom -> Prop) (s s' : dom) (w : option throttle) :
  (forall this args h, snd (fn this args h) = Returned) ->
  settled fn current s w ->
  settled fn current s' (option_map (wrapper tt tt) w).
Proof.
  intros R. destruct w as [w|]; simpl; [|auto]. intros [S _].
  destruct (in_step_step fn (Invoke tt tt) w R S) as (S' & _ & _ & T).
  simpl in S', T. split; [exact S'|]. rewrite T. discriminate.
Qed.

Lemma well_kept_init (has_header has_indicator : bool) (s : dom) :
  well_kept (init has_header has_indicator s).
Proof.
  unfold well_kept, init.
  destruct has_header, has_indicator; simpl; repeat split;
    try discriminate; try reflexivity.
  all: try (right; split; [reflexivity | now exists (tt, tt)]).
  all: left; now split.
Qed.

Lemma well_kept_scroll (y : float) (d : Indicator.documentElement) (p : page) :
  well_kept p -> well_kept (scroll y d p).
Proof.
  intros [A B]. split; simpl.
  - exact (settled_wrapper header_fn _ _ _ _ header_fn_returns A).
  - exact (settled_wrapper indicator_fn _ _ _ _ indicator_fn_returns B).
Qed.

(** After a frame both listeners show the position of the document and
    nothing is registered. *)
Lemma frame_current (p : page) :
  well_kept p ->
  well_kept (frame p) /\
  window_scrollY (document (frame p)) = window_scrollY (document p) /\
  documentElement (document (frame p)) = documentElement (document p) /\
  (onHeaderScroll p <> None -> header_current (document (frame p))) /\
  (onIndicatorScroll p <> None -> indicator_current (document (frame p))).
Proof.
  intros [A B]. unfold frame.
  destruct (onHeaderScroll p) as [hw|] eqn:EH;
    destruct (onIndicatorScroll p) as [iw|] eqn:EI.
  - destruct A as [SA CA]. destruct B as [SB CB].
    destruct (frame_of_cases header_fn (document p) hw header_fn_returns SA)
      as (hw' & -> & TH & QH & KH).
    destruct (frame_of_cases indicator_fn (handler_state hw') iw
                indicator_fn_returns SB) as (iw' & -> & TI & QI & KI).
    assert (HC : header_current (handler_state hw')).
    { destruct KH as [[-> T]|[-> _]]; [exact (CA T) | apply header_fn_current]. }
    assert (HP : window_scrollY (handler_state hw') = window_scrollY (document p)
                 /\ documentElement (handler_state hw') = documentElement (document p)
                 /\ indicator_transform (handler_state hw')
                    = indicator_transform (document p)).
    { destruct KH as [[-> _]|[-> _]]; repeat split. }
    destruct HP as (HY & HD & HT).
    assert (IC : indicator_current (handler_state iw')).
    { destruct KI as [[-> T]|[-> _]]; [|apply indicator_fn_current].
      unfold indicator_current. rewrite HT, HD. exact (CB T). }
    assert (IP : window_scrollY (handler_state iw') = window_scrollY (handler_state hw')
                 /\ documentElement (handler_state iw') = documentElement (handler_state hw')
                 /\ header_classList (handler_state iw')
                    = header_classList (handler_state hw')).
    { destruct KI as [[-> _]|[-> _]]; repeat split. }
    destruct IP as (IY & ID & IH).
    assert (HC' : header_current (handler_state iw')).
    { unfold header_current. rewrite IH, IY. exact HC. }
    simpl. repeat split; try congruence; auto.
    + left. now split.
    + left. now split.
  - destruct A as [SA CA].
    destruct (frame_of_cases header_fn (document p) hw header_fn_returns SA)
      as (hw' & -> & TH & QH & KH).
    assert (HC : header_current (handler_state hw')).
    { destruct KH as [[-> T]|[-> _]]; [exact (CA T) | apply header_fn_current]. }
    simpl. repeat split; auto; try (destruct KH as [[-> _]|[-> _]]; reflexivity).
    + left. now split.
    + intros N. now contradiction N.
  - destruct B as [SB CB].
    change (frame_of header_fn (document p) None)
      with (document p, @None throttle). cbv beta iota.
    destruct (frame_of_cases indicator_fn (document p) iw
                indicator_fn_returns SB) as (iw' & -> & TI & QI & KI).
    assert (IC : indicator_current (handler_state iw')).
    { destruct KI as [[-> T]|[-> _]]; [exact (CB T) | apply indicator_fn_current]. }
    simpl. repeat split; auto; try (destruct KI as [[-> _]|[-> _]]; reflexivity).
    + left. now split.
    + intros N. now contradiction N.
  - simpl. repeat split; auto; intros N; now contradiction N.
Qed.

Lemma well_kept_run (es : list event) (p : page) :
  well_kept p -> well_kept (run es p).
Proof.
  unfold run. revert p. induction es as [|e es IH]; intros p K; simpl.
  - exact K.
  - apply IH. destruct e as [y d|]; simpl.
    + apply well_kept_scroll, K.
    + apply frame_current, K.
Qed.

Lemma run_position (es : list event) (p : page) :
  well_kept p ->
  (window_scrollY (document (run es p)), documentElement (document (run es p)))
  = last_position es (window_scrollY (document p)) (documentElement (document p)).
Proof.
  unfold run. revert p. induction es as [|e es IH]; intros p K; simpl.
  - reflexivity.
  - destruct e as [y d|]; simpl.
    + rewrite (IH _ (well_kept_scroll y d p K)). reflexivity.
    + destruct (frame_current p K) as (K' & Y & D & _).
      rewrite (IH _ K'), Y, D. reflexivity.
Qed.

Lemma run_listeners (es : list event) (p : page) :
  (onHeaderScroll (run es p) = None <-> onHeaderScroll p = None) /\
  (onIndicatorScroll (run es p) = None <-> onIndicatorScroll p = None).
Proof.
  unfold run. revert p. induction es as [|e es IH]; intros p; simpl.
  - split; reflexivity.
  - destruct (IH (step p e)) as [A B]. rewrite A, B. clear.
    destruct e as [y d|]; simpl.
    + destruct (onHeaderScroll p), (onIndicatorScroll p); simpl;
        repeat split; congruence.
    + unfold frame, frame_of.
      destruct (onHeaderScroll p), (onIndicatorScroll p); simpl;
        repeat split; congruence.
Qed.

(** X4: scroll events, however many, followed by an animation frame:
    the position of the document is that of the last scroll, the
    header has "scrolled" exactly when that position is beyond 50, and
    the indicator shows the factor for that position. *)
Theorem scroll_then_frame_shows_latest (has_header has_indicator : bool)
    (s : dom) (es : list event) :
  let p := run (es ++ [Frame]) (init has_header has_indicator s) in
  (window_scrollY (document p), documentElement (document p))
  = last_position es (window_scrollY s) (documentElement s) /\
  (has_header = true ->
   Header.contains (header_classList (document p)) (lit "scrolled")
   = (50 <? window_scrollY (document p))) /\
  (has_indicator = true ->
   indicator_transform (document p)
   = Some (fst (Indicator.updateIndicator (documentElement (document p))))).
Proof.
  intros p. subst p. unfold run. rewrite fold_left_app. simpl.
  fold (run es (init has_header has_indicator s)).
  pose proof (well_kept_run es _ (well_kept_init has_header has_indicator s))
    as K.
  destruct (frame_current _ K) as (_ & Y & D & HC & IC).
  destruct (run_listeners es (init has_header has_indicator s)) as [LH LI].
  split; [|split].
  - rewrite Y, D, (run_position es _ (well_kept_init _ _ s)).
    unfold init. destruct has_header, has_indicator; reflexivity.
  - intros ->. apply HC. rewrite LH.
    unfold init. destruct has_indicator; discriminate.
  - intros ->. apply IC. rewrite LI. discriminate.
Qed.

(** Two scrolls and a frame on a page with both elements. *)
Lemma scroll_then_frame_shows_latest_witness :
  let d := Indicator.mkDoc 120 1600 600 in
  let p := run ([Scroll 10 (Indicator.mkDoc 10 1600 600); Scroll 120 d]
                ++ [Frame])
               (init true true (mkDom 0 (Indicator.mkDoc 0 1600 600) [] None)) in
  Header.contains (header_classList (document p)) (lit "scrolled")
  = (50 <? window_scrollY (document p)) /\
  indicator_transform (document p)
  = Some (fst (Indicator.updateIndicator (documentElement (document p)))).
Proof.
  intros d p.
  destruct (scroll_then_frame_shows_latest true true
              (mkDom 0 (Indicator.mkDoc 0 1600 600) [] None)
              [Scroll 10 (Indicator.mkDoc 10 1600 600); Scroll 120 d])
    as (_ & A & B).
  split; [exact (A eq_refl) | exact (B eq_refl)].
Defined.

End ScrollPageFacts.

(* ================================================================== *)
(** ** Header: what the handler leaves alone *)
(* ================================================================== *)

Module HeaderMore.
Import JsString JsStringFacts Header HeaderFacts.
Open Scope float_scope.

Lemma toggle_idempotent (cl : classList) (token : jsstring) (force : bool) :
  toggle (toggle cl token force) token force = toggle cl token force.
Proof.
  unfold toggle. destruct force.
  - destruct (contains cl token) eqn:C; [now rewrite C|].
    assert (K : contains (cl ++ [token]) token = true).
    { apply contains_In, in_or_app. right. now left. }
    now rewrite K.
  - unfold remove. induction cl as [|t cl IH]; simpl; [reflexivity|].
    destruct (JsString.eqb token t) eqn:E; simpl; [exact IH|].
    rewrite E. simpl. now rewrite IH.
Qed.

Lemma toggle_NoDup (cl : classList) (token : jsstring) (force : bool) :
  NoDup cl -> NoDup (toggle cl token force).
Proof.
  intros N. unfold toggle. destruct force.
  - destruct (contains cl token) eqn:C; [exact N|].
    apply NoDup_app; [exact N | repeat constructor; intros [] |].
    intros x I [<-|[]]. apply contains_In in I. congruence.
  - apply NoDup_filter, N.
Qed.

(** X5: the header handler changes no class but "scrolled", never
    repeats a class, leaves the scroll offset alone, and running it
    again at the same offset changes nothing. *)
Theorem header_handler_touches_only_scrolled (p : page) :
  (forall other, other <> lit "scrolled" ->
     contains (header_classList (onHeaderScroll_handler p)) other
     = contains (header_classList p) other) /\
  (NoDup (header_classList p) ->
   NoDup (header_classList (onHeaderScroll_handler p))) /\
  scrollY (onHeaderScroll_handler p) = scrollY p /\
  onHeaderScroll_handler (onHeaderScroll_handler p) = onHeaderScroll_handler p.
Proof.
  unfold onHeaderScroll_handler. simpl. repeat split.
  - intros other NE. now apply contains_toggle_other.
  - apply toggle_NoDup.
  - now rewrite toggle_idempotent.
Qed.

Lemma header_handler_touches_only_scrolled_witness :
  let p := mkPage 120 [lit "sticky"; lit "top-0"] in
  contains (header_classList (onHeaderScroll_handler p)) (lit "sticky")
  = true /\
  NoDup (header_classList (onHeaderScroll_handler p)).
Proof.
  intros p.
  destruct (header_handler_touches_only_scrolled p) as (A & B & _).
  split.
  - rewrite (A (lit "sticky")); [reflexivity | discriminate].
  - apply B. repeat constructor; simpl; intuition discriminate.
Defined.

End HeaderMore.

(* ================================================================== *)
(** ** Scroll indicator: the range of the factor *)
(* ================================================================== *)

Module IndicatorMore.
Import JsNumber JsNumberFacts Indicator IndicatorFacts.
Open Scope float_scope.

(** A clamp to the unit interval gives NaN for NaN and a number
    between 0 and 1 otherwise. *)
Lemma clamp_unit_range (x : float) :
  is_nan (clamp x 0 1) = is_nan x /\
  (is_nan x = false ->
   (0 <=? clamp x 0 1) = true /\ (clamp x 0 1 <=? 1) = true).
Proof.
  pose proof (comparisons_of_cases x) as C. cbn [In] in C.
  unfold clamp, Math_max, Math_min.
  change (is_nan 0) with false. change (is_nan 1) with false.
  rewrite !orb_false_r.
  destruct C as [C|[C|[C|[C|[C|[C|[]]]]]]]; position_facts C;
    rewrite ?N, ?L0, ?G0; cbv beta iota;
    try destruct (get_sign x);
    rewrite ?N, ?L1, ?G1; cbv beta iota;
    repeat split; intros; try congruence; try reflexivity; auto.
Qed.

(** X6: whatever the three numbers read from the document, the factor
    written is between 0 and 1 unless it is NaN, and it is NaN only
    when the page is scrollable and the rounded ratio is NaN. *)
Theorem updateIndicator_factor_in_unit_interval (d : documentElement) :
  let h := scrollHeight d - clientHeight d in
  let r := ((scrollTop d / h) * 100) / 100 in
  (is_nan (scale d) = false ->
   (0 <=? scale d) = true /\ (scale d <=? 1) = true) /\
  (is_nan (scale d) = true -> (0 <? h) = true /\ is_nan r = true).
Proof.
  intros h r. subst h r. unfold scale.
  destruct (0 <? scrollHeight d - clientHeight d) eqn:G.
  - rewrite (updateIndicator_scrollable d G). cbn [fst factor_of].
    destruct (clamp_unit_range
                (scrollTop d / (scrollHeight d - clientHeight d) * 100 / 100))
      as [N R].
    split.
    + intros NN. apply R. congruence.
    + intros NN. split; [reflexivity | congruence].
  - rewrite (updateIndicator_not_scrollable d G). cbn [fst factor_of].
    split; [intros _; split; reflexivity | discriminate].
Qed.

Lemma updateIndicator_factor_in_unit_interval_witness :
  (0 <=? scale (mkDoc 5000 1600 600)) = true /\
  (scale (mkDoc 5000 1600 600) <=? 1) = true.
Proof.
  exact (proj1 (updateIndicator_factor_in_unit_interval (mkDoc 5000 1600 600))
               eq_refl).
Defined.

End IndicatorMore.

(* ================================================================== *)
(** ** Toasts: life cycle *)
(* ================================================================== *)

Module ToastMore.
Import JsString Toast ToastFacts.
Open Scope Z_scope.

Lemma toast_run_app (es es' : list event) (w : world) :
  run (es ++ es') w
  = match run es w with
    | Some w' => run es' w'
    | None => None
    end.
Proof.
  revert w. induction es as [|e es IH]; intros w; simpl; [reflexivity|].
  destruct (step e w); [apply IH | reflexivity].
Qed.

Lemma In_remove_nth_other {A} (x y : A) (n : nat) (l : list A) :
  nth_error l n = Some y -> In x l -> x <> y -> In x (remove_nth n l).
Proof.
  revert n. induction l as [|z l IH]; intros [|n]; simpl; try contradiction.
  - intros E [->|I] NE; [congruence | exact I].
  - intros E [->|I] NE; [now left | right; exact (IH n E I NE)].
Qed.

Lemma NoDup_map_filter {A B} (f : A -> B) (keep : A -> bool) (l : list A) :
  NoDup (map f l) -> NoDup (map f (filter keep l)).
Proof.
  induction l as [|x l IH]; simpl; intros N; [constructor|].
  inversion N as [|? ? NI N']. subst.
  destruct (keep x); simpl; [|exact (IH N')].
  constructor; [|exact (IH N')].
  intros I. apply NI. apply in_map_iff in I. destruct I as (y & E & I).
  apply filter_In in I. apply in_map_iff. exists y. tauto.
Qed.

(** The life of the toasts in the document. *)
Record lifecycle (w : world) : Prop := mkLife {
  life_ids : NoDup (map tid (body w));
  life_fresh : forall t, In t (body w) -> (tid t < next_id w)%nat;
  life_created : forall t, In t (body w) -> exists T, In (tid t, T) (created w);
  life_pending : forall t, In t (body w) ->
      (exists due, In (due, tid t) (timers w)) \/
      (exists f, In (Exit (tid t) f) (tweens w))
}.

Lemma lifecycle_init : lifecycle init.
Proof. constructor; simpl; try constructor; intros; contradiction. Qed.

Lemma lifecycle_step (e : event) (w w' : world) :
  lifecycle w -> step e w = Some w' -> lifecycle w'.
Proof.
  intros [N F C P]. destruct e as [m ty|d|n|n]; simpl.
  - intros E. injection E as <-. constructor; simpl.
    + rewrite map_app. simpl. apply NoDup_app; [exact N | repeat constructor; intros [] |].
      intros x I [<-|[]]. apply in_map_iff in I. destruct I as (t & E & I).
      specialize (F t I). lia.
    + intros t I. apply in_app_or in I. destruct I as [I|[<-|[]]].
      * specialize (F t I). lia.
      * simpl. lia.
    + intros t I. apply in_app_or in I. destruct I as [I|[<-|[]]].
      * destruct (C t I) as [T IT]. exists T. now right.
      * exists (now w). now left.
    + intros t I. apply in_app_or in I. destruct I as [I|[<-|[]]].
      * destruct (P t I) as [[due ID]|[f IE]].
        -- left. exists due. apply in_or_app. now left.
        -- right. exists f. apply in_or_app. now left.
      * left. exists (now w + dwell). apply in_or_app. right. now left.
  - unfold elapse. destruct (0 <=? d); [|discriminate].
    intros E. injection E as <-. constructor; simpl; auto.
  - unfold fire_timer.
    destruct (nth_error (timers w) n) as [[due id]|] eqn:NT; [|discriminate].
    destruct (due <=? now w); [|discriminate].
    intros E. injection E as <-. constructor; simpl; auto.
    intros t I. destruct (P t I) as [[due' ID]|[f IE]].
    + destruct (Nat.eq_dec (tid t) id) as [EQ|NE].
      * right. exists (now w + exit_duration). apply in_or_app. right.
        left. now rewrite EQ.
      * left. exists due'. apply (In_remove_nth_other _ (due, id) n); auto.
        congruence.
    + right. exists f. apply in_or_app. now left.
  - unfold complete_tween.
    destruct (nth_error (tweens w) n) as [t0|] eqn:NT; [|discriminate].
    destruct (finish_of t0 <=? now w); [|discriminate].
    intros E. injection E as <-. destruct t0 as [id f0|id f0].
    + constructor; simpl; auto.
      intros t I. destruct (P t I) as [ID|[f IE]]; [now left|].
      right. exists f. apply (In_remove_nth_other _ (Entrance id f0) n); auto.
      discriminate.
    + constructor; simpl.
      * apply NoDup_map_filter, N.
      * intros t I. apply filter_In in I. apply F, I.
      * intros t I. apply filter_In in I. apply C, I.
      * intros t I. apply filter_In in I. destruct I as [I K].
        apply negb_true_iff, Nat.eqb_neq in K.
        destruct (P t I) as [ID|[f IE]]; [now left|].
        right. exists f. apply (In_remove_nth_other _ (Exit id f0) n); auto.
        congruence.
Qed.

Lemma lifecycle_run (es : list event) (w w' : world) :
  lifecycle w -> run es w = Some w' -> lifecycle w'.
Proof.
  revert w. induction es as [|e es IH]; simpl; intros w L.
  - intros E. injection E as <-. exact L.
  - destruct (step e w) as [w1|] eqn:S; [|discriminate].
    apply IH. exact (lifecycle_step e w w1 L S).
Qed.

(** X7: in every world the page can reach, the toasts in the document
    are distinct nodes, each was created by [showToast], and each still
    has its dwell timer pending or its exit tween running: none is left
    behind without a way out.  A pending timer of a toast is due
    3000 ms after the toast was created. *)
Theorem toast_in_document_has_exit_pending (w : world) (t : toast) :
  reachable w -> In t (body w) ->
  NoDup (map tid (body w)) /\
  (exists T, In (tid t, T) (created w)) /\
  ((exists due, In (due, tid t) (timers w)) \/
   (exists f, In (Exit (tid t) f) (tweens w))) /\
  (forall due, In (due, tid t) (timers w) ->
               In (tid t, due - 3000) (created w)).
Proof.
  intros [es R] I.
  destruct (lifecycle_run es init w lifecycle_init R) as [N F C P].
  split; [exact N|]. split; [exact (C t I)|]. split; [exact (P t I)|].
  intros due J.
  exact (inv_timers w (invariant_reachable w (ex_intro _ es R)) due (tid t) J).
Qed.

Lemma toast_in_document_has_exit_pending_witness :
  let w := world_after [Show (lit "saved") (lit "success"); Elapse 3000;
                        FireTimer 0] in
  exists f, In (Exit 0 f) (tweens w).
Proof.
  intros w.
  destruct (toast_in_document_has_exit_pending w
              (mkToast 0 (lit "saved")
                       (base_class ++ type_class (lit "success"))))
    as (_ & _ & [[due I]|E] & _).
  - exists [Show (lit "saved") (lit "success"); Elapse 3000; FireTimer 0].
    reflexivity.
  - left. reflexivity.
  - contradiction I.
  - exact E.
Defined.

(** The time still to wait until every pending timer is due. *)
Definition wait_for_timers (w : world) : Z :=
  fold_right (fun timer acc => Z.max (fst timer - now w) acc) 0 (timers w).

(** The time still to wait until every tween has ended. *)
Definition wait_for_tweens (w : world) : Z :=
  fold_right (fun t acc => Z.max (finish_of t - now w) acc) 0 (tweens w).

Lemma wait_bound {A} (f : A -> Z) (l : list A) :
  0 <= fold_right (fun x acc => Z.max (f x) acc) 0 l /\
  forall x, In x l -> f x <= fold_right (fun x acc => Z.max (f x) acc) 0 l.
Proof.
  induction l as [|y l [P B]]; simpl.
  - split; [lia | intros x []].
  - split; [lia|]. intros x [->|I]; [lia|]. specialize (B x I). lia.
Qed.

Lemma elapse_total (d : Z) (w : world) :
  0 <= d ->
  elapse d w
  = Some (mkWorld (now w + d) (next_id w) (body w) (timers w) (tweens w)
                  (created w)).
Proof. intros D. unfold elapse. apply Z.leb_le in D. now rewrite D. Qed.

(** Once every timer is due the host can run them all. *)
Lemma fire_all (k : nat) (w : world) :
  List.length (timers w) = k ->
  (forall due id, In (due, id) (timers w) -> due <= now w) ->
  exists w', run (repeat (FireTimer 0) k) w = Some w' /\
             timers w' = [] /\ body w' = body w /\ now w' = now w.
Proof.
  revert w. induction k as [|k IH]; intros w L D.
  - exists w. apply length_zero_iff_nil in L. repeat split. exact L.
  - destruct (timers w) as [|[due id] r] eqn:T; [discriminate|].
    simpl. unfold fire_timer. rewrite T. simpl.
    assert (B : (due <=? now w) = true) by (apply Z.leb_le, (D due id); now left).
    rewrite B.
    destruct (IH (mkWorld (now w) (next_id w) (body w) r
                          (tweens w ++ [Exit id (now w + exit_duration)])
                          (created w))) as (w' & R & T' & B' & N').
    + simpl. simpl in L. lia.
    + simpl. intros due' id' I. apply (D due' id'). now right.
    + exists w'. repeat split; assumption.
Qed.

(** Once every tween has ended the engine can complete them all; what
    is then left in the document had no exit tween. *)
Lemma complete_all (k : nat) (w : world) :
  List.length (tweens w) = k ->
  (forall t, In t (tweens w) -> finish_of t <= now w) ->
  exists w', run (repeat (CompleteTween 0) k) w = Some w' /\
             tweens w' = [] /\ timers w' = timers w /\
             forall t, In t (body w') ->
                       In t (body w) /\
                       forall f, ~ In (Exit (tid t) f) (tweens w).
Proof.
  revert w. induction k as [|k IH]; intros w L D.
  - exists w. apply length_zero_iff_nil in L. repeat split; auto.
    rewrite L. intros f [].
  - destruct (tweens w) as [|t0 r] eqn:T; [discriminate|].
    simpl. unfold complete_tween. rewrite T. simpl.
    assert (B : (finish_of t0 <=? now w) = true)
      by (apply Z.leb_le, D; now left).
    rewrite B.
    destruct (IH (mkWorld (now w) (next_id w)
                          match t0 with
                          | Entrance _ _ => body w
                          | Exit id _ => remove_node id (body w)
                          end (timers w) r (created w)))
      as (w' & R & T' & TI & K).
    + simpl. simpl in L. lia.
    + simpl. intros t I. apply D. now right.
    + exists w'. split; [exact R|]. split; [exact T'|]. split; [exact TI|].
      intros t I. destruct (K t I) as [IB NE]. simpl in IB, NE.
      destruct t0 as [id f0|id f0].
      * split; [exact IB|]. intros f [E|J]; [discriminate | exact (NE f J)].
      * apply filter_In in IB. destruct IB as [IB NI].
        apply negb_true_iff, Nat.eqb_neq in NI.
        split; [exact IB|]. intros f [E|J]; [congruence | exact (NE f J)].
Qed.

(** X8: from every world the page can reach there is a way on (wait,
    let the host run the timers, wait, let the engine complete the
    tweens) after which the document holds no toast, no timer is
    pending and no tween is running. *)
Theorem every_toast_can_leave (w : world) :
  reachable w ->
  exists es w', run es w = Some w' /\
                body w' = [] /\ timers w' = [] /\ tweens w' = [].
Proof.
  intros [es0 R0].
  pose proof (lifecycle_run es0 init w lifecycle_init R0) as L.
  destruct (wait_bound (fun timer => fst timer - now w) (timers w)) as [P1 B1].
  pose (w1 := mkWorld (now w + wait_for_timers w) (next_id w) (body w)
                      (timers w) (tweens w) (created w)).
  assert (S1 : run [Elapse (wait_for_timers w)] w = Some w1).
  { cbn [run step]. now rewrite (elapse_total (wait_for_timers w) w P1). }
  destruct (fire_all (List.length (timers w1)) w1 eq_refl) as (w2 & S2 & T2 & _).
  { intros due id I. specialize (B1 (due, id) I). simpl in *.
    unfold wait_for_timers. lia. }
  destruct (wait_bound (fun t => finish_of t - now w2) (tweens w2)) as [P3 B3].
  pose (w3 := mkWorld (now w2 + wait_for_tweens w2) (next_id w2) (body w2)
                      (timers w2) (tweens w2) (created w2)).
  assert (S3 : run [Elapse (wait_for_tweens w2)] w2 = Some w3).
  { cbn [run step]. now rewrite (elapse_total (wait_for_tweens w2) w2 P3). }
  destruct (complete_all (List.length (tweens w3)) w3 eq_refl)
    as (w4 & S4 & T4 & TI4 & K4).
  { intros t I. specialize (B3 t I). simpl in *. unfold wait_for_tweens. lia. }
  exists ([Elapse (wait_for_timers w)]
          ++ repeat (FireTimer 0) (List.length (timers w1))
          ++ [Elapse (wait_for_tweens w2)]
          ++ repeat (CompleteTween 0) (List.length (tweens w3))), w4.
  split.
  - rewrite toast_run_app, S1, toast_run_app, S2, toast_run_app, S3. exact S4.
  - assert (L3 : lifecycle w3).
    { apply (lifecycle_run
               ([Elapse (wait_for_timers w)]
                ++ repeat (FireTimer 0) (List.length (timers w1))
                ++ [Elapse (wait_for_tweens w2)]) w w3 L).
      rewrite toast_run_app, S1, toast_run_app, S2. exact S3. }
    split; [|split; [|exact T4]].
    + destruct (body w4) as [|t b] eqn:B; [reflexivity|]. exfalso.
      destruct (K4 t) as [I NE]; [now left|].
      destruct (life_pending w3 L3 t I) as [[due J]|[f J]].
      * simpl in J. rewrite T2 in J. exact J.
      * exact (NE f J).
    + rewrite TI4. simpl. exact T2.
Qed.

Lemma every_toast_can_leave_witness :
  exists es w',
    run es (world_after [Show (lit "saved") (lit "success"); Elapse 10;
                         Show (lit "failed") (lit "error")]) = Some w' /\
    body w' = [] /\ timers w' = [] /\ tweens w' = [].
Proof.
  apply every_toast_can_leave.
  exists [Show (lit "saved") (lit "success"); Elapse 10;
          Show (lit "failed") (lit "error")].
  reflexivity.
Defined.

End ToastMore.

(* ================================================================== *)
(** ** Contact form: effects of a submission *)
(* ================================================================== *)

Module ContactFormMore.
Import JsString JsStringFacts ContactForm ContactFormFacts.
Open Scope Z_scope.

(** The text and the category of the toast for a result of the fetch. *)
Definition message_of (r : fetch_result) : jsstring :=
  match r with
  | Response status => if ok status then success_message else rejected_message
  | FetchError _ => network_message
  end.

Definition type_of (r : fetch_result) : jsstring :=
  match r with
  | Response status => if ok status then lit "success" else lit "error"
  | FetchError _ => lit "error"
  end.

Lemma eqb_app_head (a b c : jsstring) :
  JsString.eqb (a ++ b) (a ++ c) = JsString.eqb b c.
Proof.
  induction a as [|x a IH]; simpl; [reflexivity|].
  now rewrite N.eqb_refl, IH.
Qed.

(** X9: the element [showToast] appends carries the message, and its
    class ends in "bg-red-600" exactly for the type "error", in
    "bg-green-600" exactly for the type "success", and in
    "bg-gray-700" for every other type, the default "info" included. *)
Theorem toast_style_follows_type (message type : jsstring) (w : Toast.world) :
  exists t,
    Toast.body (Toast.showToast message type w) = Toast.body w ++ [t] /\
    Toast.textContent t = message /\
    (Toast.className t = Toast.base_class ++ lit "bg-red-600"
     <-> type = lit "error") /\
    (Toast.className t = Toast.base_class ++ lit "bg-green-600"
     <-> type = lit "success") /\
    (Toast.className t = Toast.base_class ++ lit "bg-gray-700"
     <-> type <> lit "error" /\ type <> lit "success").
Proof.
  eexists. split; [reflexivity|]. split; [reflexivity|].
  cbn [Toast.className].
  assert (C : forall a b : jsstring,
             Toast.base_class ++ a = Toast.base_class ++ b <-> a = b).
  { intros a b. split; [apply app_inv_head | now intros ->]. }
  rewrite !C. clear C. unfold Toast.type_class.
  destruct (JsString.eqb type (lit "success")) eqn:S.
  - apply eqb_eq in S. subst type.
    split; [split; discriminate|]. split; [split; reflexivity|].
    split; [discriminate|]. intros [_ K]. now contradiction K.
  - apply eqb_neq in S.
    destruct (JsString.eqb type (lit "error")) eqn:E.
    + apply eqb_eq in E. subst type.
      split; [split; reflexivity|]. split; [split; discriminate|].
      split; [discriminate|]. intros [K _]. now contradiction K.
    + apply eqb_neq in E.
      split; [split; [discriminate | intros K; contradiction]|].
      split; [split; [discriminate | intros K; contradiction]|].
      split; [intros _; now split | reflexivity].
Qed.

Lemma toast_style_follows_type_witness :
  exists t,
    Toast.body (Toast.showToast (lit "hello") (lit "info") Toast.init) = [t] /\
    Toast.className t = Toast.base_class ++ lit "bg-gray-700".
Proof.
  destruct (toast_style_follows_type (lit "hello") (lit "info") Toast.init)
    as (t & B & _ & _ & _ & G).
  exists t. split; [exact B|].
  apply G. split; discriminate.
Defined.

(** X10: the listener cancels the default navigation in every case,
    and it throws before issuing the fetch exactly when the form has
    no submit button; then nothing else on the page has changed. *)
Theorem submit_begin_cases (p : page) :
  match submit_begin p with
  | Awaiting p' =>
      submitButton p <> None /\
      defaultPrevented p' = true /\
      submitButton p' = Some (mkButton true (lit "Sending...")) /\
      controls p' = controls p /\ toasts p' = toasts p
  | Thrown p' =>
      submitButton p = None /\
      p' = mkPage (controls p) None true (form_tweens p) (console_errors p)
                  (toasts p)
  end.
Proof.
  unfold submit_begin, preventDefault. cbn [submitButton].
  destruct (submitButton p) as [b|]; simpl.
  - repeat split. discriminate.
  - split; reflexivity.
Qed.

Lemma submit_effects (r : fetch_result) (p : page) (b : button) :
  submitButton p = Some b ->
  submit r p
  = Some (mkPage
            (match r with
             | Response status =>
                 if ok status then map reset_control (controls p)
                 else controls p
             | FetchError _ => controls p
             end)
            (Some (mkButton false (lit "Send Message")))
            true
            (form_tweens p
             ++ match r with
                | Response status => if ok status then [FadeOut; FadeIn] else []
                | FetchError _ => []
                end)
            (console_errors p
             ++ match r with
                | Response _ => []
                | FetchError error => [lit "Form submission error:" ++ error]
                end)
            (Toast.showToast (message_of r) (type_of r) (toasts p))).
Proof.
  intros B. rewrite (submit_with_button r p b B).
  unfold submit_resume, try_block, catch_block, finally_block, message_of,
    type_of.
  unfold set_button, gsap_to_form, form_reset, showToast, console_error.
  destruct r as [status|error].
  - destruct (ok status);
      cbn [controls submitButton defaultPrevented form_tweens console_errors
           toasts];
      rewrite ?app_nil_r, <- ?app_assoc; reflexivity.
  - cbn [controls submitButton defaultPrevented form_tweens console_errors
         toasts].
    rewrite ?app_nil_r. reflexivity.
Qed.

(** X11: what a completed submission does besides the toast.  The
    console gets one entry when the fetch threw and none otherwise;
    the form is faded out and in when the status was ok and not
    animated otherwise; after an ok status every control holds its
    default value, and the controls keep their names and number; one
    timer is added, due 3000 ms after the listener ran. *)
Theorem submit_side_effects (r : fetch_result) (p : page) (b : button) :
  submitButton p = Some b ->
  exists p', submit r p = Some p' /\
  console_errors p'
  = console_errors p
    ++ match r with
       | Response _ => []
       | FetchError error => [lit "Form submission error:" ++ error]
       end /\
  form_tweens p'
  = form_tweens p
    ++ match r with
       | Response status => if ok status then [FadeOut; FadeIn] else []
       | FetchError _ => []
       end /\
  map name (controls p') = map name (controls p) /\
  (forall status, r = Response status -> ok status = true ->
     Forall (fun c => value c = defaultValue c) (controls p')) /\
  List.length (Toast.timers (toasts p'))
  = S (List.length (Toast.timers (toasts p))) /\
  Toast.timers (toasts p')
  = Toast.timers (toasts p)
    ++ [(Toast.now (toasts p) + 3000, Toast.next_id (toasts p))].
Proof.
  intros B. eexists. split; [exact (submit_effects r p b B)|].
  cbn [console_errors form_tweens controls toasts].
  repeat split.
  - destruct r as [status|error]; [destruct (ok status)|]; try reflexivity.
    rewrite map_map. reflexivity.
  - intros status -> O. rewrite O. apply Forall_forall.
    intros c I. apply in_map_iff in I. destruct I as (c0 & <- & _).
    reflexivity.
  - cbn [Toast.showToast Toast.timers]. rewrite length_app. simpl. lia.
Qed.

Lemma submit_side_effects_witness :
  exists p', submit (Response 200) filled_form = Some p' /\
             Forall (fun c => value c = defaultValue c) (controls p') /\
             console_errors p' = [].
Proof.
  destruct (submit_side_effects (Response 200) filled_form _ eq_refl)
    as (p' & S & C & _ & _ & D & _).
  exists p'. split; [exact S|]. split; [exact (D 200 eq_refl eq_refl)|].
  exact C.
Defined.







Lemma created_run (es : list Toast.event) (w w' : Toast.world) :
  Toast.run es w = Some w' ->
  forall x, In x (Toast.created w) -> In x (Toast.created w').
Proof.
  revert w. induction es as [|e es IH]; simpl; intros w.
  - intros E. injection E as <-. auto.
  - destruct (Toast.step e w) as [w1|] eqn:S; [|discriminate].
    intros R x I. apply (IH w1 R).
    destruct e as [m t|d|n|n]; simpl in S.
    + injection S as <-. now right.
    + unfold Toast.elapse in S. destruct (0 <=? d); [|discriminate].
      injection S as <-. exact I.
    + unfold Toast.fire_timer in S.
      destruct (nth_error (Toast.timers w) n) as [[due id]|]; [|discriminate].
      destruct (due <=? Toast.now w); [|discriminate].
      injection S as <-. exact I.
    + unfold Toast.complete_tween in S.
      destruct (nth_error (Toast.tweens w) n) as [t0|]; [|discriminate].
      destruct (Toast.finish_of t0 <=? Toast.now w); [|discriminate].
      injection S as <-. exact I.
Qed.

(** X13: the toast a submission shows stays: on a page whose toasts
    came about by the events of the toast model, in every world
    reached from the one the listener leaves, the toast of this
    submission is in the document as long as less than 3000 ms have
    passed since the listener ran. *)
Theorem submission_toast_stays (r : fetch_result) (p : page) (b : button) :
  submitButton p = Some b -> Toast.reachable (toasts p) ->
  exists p', submit r p = Some p' /\
  forall es w,
    Toast.run es (toasts p') = Some w ->
    Toast.now w < Toast.now (toasts p) + 3000 ->
    Toast.in_document (Toast.next_id (toasts p)) w = true.
Proof.
  intros B [es0 R0]. eexists. split; [exact (submit_effects r p b B)|].
  cbn [toasts]. intros es w R T.
  assert (RW : Toast.reachable w).
  { exists (es0 ++ [Toast.Show (message_of r) (type_of r)] ++ es).
    rewrite ToastMore.toast_run_app, R0, ToastMore.toast_run_app. exact R. }
  apply ToastFacts.invariant_reachable in RW.
  apply (Toast.inv_present w RW (Toast.next_id (toasts p))
                           (Toast.now (toasts p))).
  - apply (created_run es _ w R). now left.
  - unfold Toast.dwell, Toast.exit_duration. lia.
Qed.

Lemma submission_toast_stays_witness :
  exists p', submit (Response 422) filled_form = Some p' /\
  forall es w,
    Toast.run es (toasts p') = Some w ->
    Toast.now w < Toast.now (toasts filled_form) + 3000 ->
    Toast.in_document (Toast.next_id (toasts filled_form)) w = true.
Proof.
  apply (submission_toast_stays (Response 422) filled_form _ eq_refl).
  exists []. reflexivity.
Defined.

End ContactFormMore.

(* ================================================================== *)
(** ** Project modal: opening, reopening, closing *)
(* ================================================================== *)

Module ModalMore.
Import JsString JsStringFacts Modal ModalFacts.

Lemma trim_start_head (s : jsstring) (c : code_unit) (r : jsstring) :
  trim_start s = c :: r -> is_white_space c = false.
Proof.
  induction s as [|x s IH]; simpl; [discriminate|].
  destruct (is_white_space x) eqn:W; [exact IH|].
  intros E. injection E as <- _. exact W.
Qed.

Lemma trim_end_head (s : jsstring) (c : code_unit) (r : jsstring) :
  trim_end s = c :: r -> exists r', s = c :: r'.
Proof.
  destruct s as [|x s]; simpl; [discriminate|].
  destruct (trim_end s); [destruct (is_white_space x)|];
    intros E; try discriminate; injection E as <- _; now exists s.
Qed.

Lemma trim_end_last (s pre : jsstring) (c : code_unit) :
  trim_end s = pre ++ [c] -> is_white_space c = false.
Proof.
  revert pre. induction s as [|x s IH]; intros pre; simpl.
  - destruct pre; discriminate.
  - destruct (trim_end s) as [|y r] eqn:T.
    + destruct (is_white_space x) eqn:W.
      * destruct pre; discriminate.
      * destruct pre as [|z pre]; simpl; intros E.
        -- injection E as <-. exact W.
        -- injection E as _ E. destruct pre; discriminate.
    + destruct pre as [|z pre]; simpl; intros E; [discriminate|].
      injection E as _ E. exact (IH pre E).
Qed.

Lemma In_trim_start (x : code_unit) (s : jsstring) :
  In x (trim_start s) -> In x s.
Proof.
  induction s as [|y s IH]; simpl; [auto|].
  destruct (is_white_space y); [right; auto | auto].
Qed.

Lemma In_trim_end (x : code_unit) (s : jsstring) :
  In x (trim_end s) -> In x s.
Proof.
  induction s as [|y s IH]; simpl; [auto|].
  destruct (trim_end s) as [|z r].
  - destruct (is_white_space y); simpl; tauto.
  - simpl. intros [E|I]; [now left | right; apply IH; exact I].
Qed.

(** A piece of [split] holds no separator. *)
Lemma split_pieces_no_sep (sep : code_unit) (s piece : jsstring) :
  In piece (split sep s) -> ~ In sep piece.
Proof.
  revert piece. induction s as [|c r IH]; simpl; intros piece.
  - intros [<-|[]] [].
  - destruct (N.eqb c sep) eqn:E.
    + intros [<-|I]; [intros [] | exact (IH piece I)].
    + apply N.eqb_neq in E.
      destruct (split sep r) as [|t ts]; simpl.
      * intros [<-|[]] [K|[]]. congruence.
      * intros [<-|I].
        -- intros [K|K]; [congruence|]. apply (IH t); [now left | exact K].
        -- apply IH. now right.
Qed.

(** X14: every label the click listener renders carries the label
    class, holds no comma, and neither begins nor ends with white
    space. *)
Theorem card_click_labels_are_trimmed (c : card) (p : page)
    (className text : jsstring) :
  has_modal_elements p = true ->
  (exists children,
      modalStackContainer (fst (card_click c p)) = Some children /\
      In (Span className text) children) ->
  className = span_class /\
  ~ In comma text /\
  (forall first rest, text = first :: rest -> is_white_space first = false) /\
  (forall front last, text = front ++ [last] -> is_white_space last = false).
Proof.
  intros E (children & M & I). rewrite (card_click_complete c p E) in M.
  cbn [fst modalStackContainer] in M. injection M as <-.
  unfold stack_of in I.
  destruct (data_stack c) as [s|]; [|destruct I as [I|[]]; discriminate].
  destruct (truthy s); [|destruct I as [I|[]]; discriminate].
  rewrite render_stack_labels in I.
  2:{ pose proof (split_not_nil comma s) as N.
      destruct (split comma s); [contradiction | discriminate]. }
  apply in_map_iff in I. destruct I as (t & Q & I). injection Q as <- <-.
  apply in_map_iff in I. destruct I as (piece & <- & I).
  split; [reflexivity|]. split; [|split].
  - intros K. apply (split_pieces_no_sep comma s piece I).
    apply In_trim_start, In_trim_end, K.
  - intros first rest T. unfold trim in T.
    destruct (trim_end_head _ _ _ T) as [r' S].
    exact (trim_start_head piece first r' S).
  - intros front last T. exact (trim_end_last _ front last T).
Qed.

Lemma card_click_labels_are_trimmed_witness :
  ~ In comma (lit "React") /\
  (forall first rest, lit "React" = first :: rest ->
                      is_white_space first = false).
Proof.
  destruct (card_click_labels_are_trimmed
              (card_with_stack (Some (lit " Go ,  React  "))) closed_page
              span_class (lit "React") eq_refl) as (_ & A & B & _).
  - eexists. split; [reflexivity|]. right. left. reflexivity.
  - split; [exact A | exact B].
Defined.

(** X15: the click listener throws exactly when one of the four modal
    elements is missing, and then the page is not locked: the overflow
    of the body, the display of the modal and the focus are as
    before. *)
Theorem card_click_throws_iff_element_missing (c : card) (p : page) :
  (snd (card_click c p) = Raf.Threw <-> has_modal_elements p = false) /\
  (snd (card_click c p) = Raf.Threw ->
   body_overflow (fst (card_click c p)) = body_overflow p /\
   modal (fst (card_click c p)) = modal p /\
   close_focused (fst (card_click c p)) = close_focused p /\
   closeModal (fst (card_click c p)) = closeModal p).
Proof.
  unfold card_click, has_modal_elements.
  destruct (modalTitle p) eqn:E1, (modalDescription p) eqn:E2,
    (modalStackContainer p) eqn:E3, (modal p) eqn:E4;
    cbn; repeat split; congruence.
Qed.

Lemma card_click_throws_iff_element_missing_witness :
  let broken := mkPage None (Some []) (Some []) (Some []) true (lit "") false in
  body_overflow (fst (card_click (card_with_stack None) broken)) = lit "" /\
  modal (fst (card_click (card_with_stack None) broken)) = None.
Proof.
  intros broken.
  destruct (card_click_throws_iff_element_missing (card_with_stack None) broken)
    as [_ K].
  destruct (K eq_refl) as (A & B & _). split; [exact A | exact B].
Defined.

(** X16: a click on a second card overwrites what the first click put
    into the modal: the page is as if only the second card had been
    clicked. *)
Theorem card_click_overwrites (c1 c2 : card) (p : page) :
  has_modal_elements p = true ->
  card_click c2 (fst (card_click c1 p)) = card_click c2 p.
Proof.
  intros E. rewrite (card_click_complete c1 p E). cbn [fst].
  rewrite (card_click_complete c2 p E).
  rewrite card_click_complete by reflexivity.
  cbn [closeModal close_focused]. now rewrite orb_assoc, orb_diag.
Qed.

Lemma card_click_overwrites_witness :
  card_click (card_with_stack None)
             (fst (card_click (card_with_stack (Some (lit "Go"))) closed_page))
  = card_click (card_with_stack None) closed_page.
Proof. exact (card_click_overwrites _ _ closed_page eq_refl). Defined.

(** X17: opening and then closing.  After a click, the Escape key, a
    click on the modal itself and the close control all do the same:
    the modal is hidden and the overflow of the body is the empty
    string, whatever it was before the modal was opened, while the
    content of the modal stays.  Closing again changes nothing. *)
Theorem open_then_close (c : card) (p : page) :
  has_modal_elements p = true ->
  let opened := fst (card_click c p) in
  keydown (lit "Escape") opened = hideModal opened /\
  window_click true opened = hideModal opened /\
  is_open (hideModal opened) = false /\
  body_overflow (hideModal opened) = lit "" /\
  modalTitle (hideModal opened) = modalTitle opened /\
  modalDescription (hideModal opened) = modalDescription opened /\
  modalStackContainer (hideModal opened) = modalStackContainer opened /\
  hideModal (hideModal opened) = hideModal opened.
Proof.
  intros E opened. subst opened. rewrite (card_click_complete c p E).
  cbn [fst]. repeat split.
Qed.

Lemma open_then_close_witness :
  let locked := mkPage (Some (lit "")) (Some []) (Some []) (Some []) false
                       (lit "scroll") false in
  body_overflow (hideModal (fst (card_click (card_with_stack None) locked)))
  = lit "".
Proof.
  intros locked.
  destruct (open_then_close (card_with_stack None) locked eq_refl)
    as (_ & _ & _ & O & _).
  exact O.
Defined.

(** X18: after a click the title and the description of the modal are
    never empty: an attribute that is present but empty gives the
    default text, like an absent one. *)
Theorem card_click_texts_not_empty (c : card) (p : page) :
  has_modal_elements p = true ->
  let p' := fst (card_click c p) in
  (exists first rest, modalTitle p' = Some (first :: rest)) /\
  (exists first rest, modalDescription p' = Some (first :: rest)) /\
  (data_title c = Some [] -> modalTitle p' = Some (lit "Project Details")) /\
  (data_description c = Some [] ->
   modalDescription p' = Some (lit "No description available.")).
Proof.
  intros E p'. subst p'. rewrite (card_click_complete c p E).
  cbn [fst modalTitle modalDescription]. unfold or_default.
  repeat split.
  - destruct (data_title c) as [[|x t]|]; cbn [truthy]; eexists; eexists;
      reflexivity.
  - destruct (data_description c) as [[|x t]|]; cbn [truthy]; eexists; eexists;
      reflexivity.
  - now intros ->.
  - now intros ->.
Qed.

Lemma card_click_texts_not_empty_witness :
  modalTitle (fst (card_click (mkCard (Some []) None None) closed_page))
  = Some (lit "Project Details").
Proof.
  exact (proj1 (proj2 (proj2 (card_click_texts_not_empty
                                (mkCard (Some []) None None) closed_page
                                eq_refl))) eq_refl).
Defined.

End ModalMore.

(* ================================================================== *)
(** ** Section fades *)
(* ================================================================== *)

Module SectionsFacts.
Import JsString JsStringFacts Sections.

Lemma skipped_false (len : nat) (id : jsstring) (index : nat) :
  skipped len id index = false <-> id <> lit "hero" /\ S index <> len.
Proof.
  unfold skipped. rewrite orb_false_iff, eqb_neq, Z.eqb_neq. split.
  - intros [A B]. split; [exact A | lia].
  - intros [A B]. split; [exact A | lia].
Qed.

Lemma forEach_from_In (len index : nat) (ids : list jsstring) (i : nat) :
  In i (forEach_from len index ids) <->
  exists id, index <= i /\ nth_error ids (i - index) = Some id /\
             skipped len id i = false.
Proof.
  revert index. induction ids as [|id ids IH]; intros index; simpl.
  - split; [intros [] | intros (id & _ & N & _)].
    destruct (i - index); discriminate.
  - assert (K : In i (forEach_from len (S index) ids) <->
                exists id', S index <= i /\
                            nth_error (id :: ids) (i - index) = Some id' /\
                            skipped len id' i = false).
    { rewrite IH. split; intros (id' & L & N & Sk); exists id'.
      - split; [exact L|]. split; [|exact Sk].
        replace (i - index) with (S (i - S index)) by lia. exact N.
      - split; [exact L|]. split; [|exact Sk].
        replace (i - index) with (S (i - S index)) in N by lia. exact N. }
    destruct (skipped len id index) eqn:SK; simpl; rewrite K; clear K.
    + split; intros (id' & L & N & Sk).
      * exists id'. split; [lia|]. split; assumption.
      * exists id'. split; [|split; assumption].
        destruct (Nat.eq_dec i index) as [->|NE]; [|lia].
        rewrite Nat.sub_diag in N. simpl in N. injection N as <-. congruence.
    + split.
      * intros [<-|(id' & L & N & Sk)].
        -- exists id. rewrite Nat.sub_diag. simpl. repeat split; auto.
        -- exists id'. split; [lia|]. split; assumption.
      * intros (id' & L & N & Sk).
        destruct (Nat.eq_dec i index) as [->|NE]; [now left|].
        right. exists id'. split; [lia|]. split; assumption.
Qed.

(** X19: the sections that get the fade tween are exactly those whose
    id is not "hero" and that are not the last one; so a page with no
    section or with one section gets none. *)
Theorem section_fades_skip_hero_and_last (ids : list jsstring) (i : nat) :
  (In i (section_fades ids) <->
   exists id, nth_error ids i = Some id /\ id <> lit "hero" /\
              S i <> List.length ids) /\
  (List.length ids <= 1 -> section_fades ids = []).
Proof.
  assert (K : forall j, In j (section_fades ids) <->
              exists id, nth_error ids j = Some id /\ id <> lit "hero" /\
                         S j <> List.length ids).
  { intros j. unfold section_fades. rewrite forEach_from_In.
    split; intros (id & A); exists id.
    - destruct A as (_ & N & Sk). rewrite Nat.sub_0_r in N.
      apply skipped_false in Sk. tauto.
    - destruct A as (N & Sk). split; [lia|]. rewrite Nat.sub_0_r.
      split; [exact N | apply skipped_false, Sk]. }
  split; [apply K|].
  intros L. destruct (section_fades ids) as [|j l] eqn:F; [reflexivity|].
  exfalso. destruct (proj1 (K j)) as (id & N & _ & Sk).
  - now left.
  - assert (j < List.length ids) by (apply nth_error_Some; congruence). lia.
Qed.

Lemma section_fades_skip_hero_and_last_witness :
  section_fades [lit "contact"] = [].
Proof.
  exact (proj2 (section_fades_skip_hero_and_last [lit "contact"] 0)
               (le_n 1)).
Defined.

End SectionsFacts.

(* ================================================================== *)
(** ** The frame loop of the smooth-scrolling engine *)
(* ================================================================== *)

Module LenisLoopFacts.
Import LenisLoop.

Lemma run_callbacks_effect (n : nat) (time : float) (w : world) :
  run_callbacks n time w
  = mkWorld (n + raf_registered w) (lenis_raf_times w ++ repeat time n).
Proof.
  revert w. induction n as [|n IH]; intros w; simpl.
  - rewrite app_nil_r. now destruct w.
  - rewrite IH. simpl. rewrite <- app_assoc. simpl.
    f_equal. lia.
Qed.

Lemma animation_frame_effect (time : float) (w : world) :
  animation_frame time w
  = mkWorld (raf_registered w)
            (lenis_raf_times w ++ repeat time (raf_registered w)).
Proof.
  unfold animation_frame. rewrite run_callbacks_effect. simpl.
  f_equal. lia.
Qed.

Lemma frames_one_registered (times : list float) (w : world) :
  raf_registered w = 1 ->
  frames times w = mkWorld 1 (lenis_raf_times w ++ times).
Proof.
  unfold frames. revert w. induction times as [|t ts IH]; intros w R; simpl.
  - rewrite app_nil_r. destruct w. simpl in R. now subst.
  - rewrite IH.
    + rewrite animation_frame_effect, R. simpl. now rewrite <- app_assoc.
    + rewrite animation_frame_effect. exact R.
Qed.

Lemma frames_none_registered (times : list float) (w : world) :
  raf_registered w = 0 -> frames times w = w.
Proof.
  unfold frames. revert w. induction times as [|t ts IH]; intros w R; simpl.
  - reflexivity.
  - rewrite animation_frame_effect, R. simpl. rewrite app_nil_r.
    rewrite IH by reflexivity. destruct w. simpl in R. now subst.
Qed.

(** X20: with the smooth-scrolling engine on the page, after any
    number of animation frames the engine has been driven exactly once
    per frame, with the times of the frames in order, and exactly one
    callback waits for the next frame: the loop neither stops nor
    multiplies.  Without the engine no callback is ever registered. *)
Theorem lenis_driven_once_per_frame (times : list float) :
  frames times (init true) = mkWorld 1 times /\
  frames times (init false) = mkWorld 0 [].
Proof.
  split.
  - now rewrite frames_one_registered.
  - now rewrite frames_none_registered.
Qed.

End LenisLoopFacts.
